(** * Instance launcher of the autoscaler (v2): a shallow embedding

    Source: [python/ray/autoscaler/v2/instance_manager/instance_launcher.py].

    The launcher talks to two collaborators that are not part of the file:
    the instance storage ([self._instance_storage]) and the node provider
    ([self._node_provider]).  Both are taken as interfaces (type classes);
    every general statement below is quantified over all their
    implementations, so that a compare-and-set may fail at any call, as it
    does when another actor has written the record.  The launcher records
    every call it makes in a chronological trace, which is what the
    statements about "calls made" are phrased on. *)

From Stdlib Require Import ZArith String Bool Lia.
From Stdlib Require Import List Permutation.
Import ListNotations.

Set Implicit Arguments.

Local Open Scope Z_scope.
Local Open Scope list_scope.

(** ** Data model *)

(** [Instance.status] of the protobuf message. *)
Inductive Status : Type :=
| UNKNOWN | QUEUED | REQUESTED | ALLOCATED | ALLOCATION_FAILED
| TERMINATING | TERMINATED.

Definition Status_eqb (a b : Status) : bool :=
  match a, b with
  | UNKNOWN, UNKNOWN | QUEUED, QUEUED | REQUESTED, REQUESTED
  | ALLOCATED, ALLOCATED | ALLOCATION_FAILED, ALLOCATION_FAILED
  | TERMINATING, TERMINATING | TERMINATED, TERMINATED => true
  | _, _ => false
  end.

(** [Instance.ray_status]; the launcher only ever writes
    [RAY_STATUS_UNKOWN] (spelled as in the source). *)
Inductive RayStatus : Type :=
| RAY_STATUS_UNSET
| RAY_STATUS_UNKOWN.

(** The instance record.  [interal_ip] is the attribute that the assignment
    [instance.interal_ip = ...] of the pairing loop writes; it is a different
    attribute from [internal_ip] and is absent ([None]) until then. *)
Record Instance : Type := mkInstance {
  instance_id : string;
  instance_type : string;
  status : Status;
  version : Z;
  cloud_instance_id : string;
  internal_ip : string;
  external_ip : string;
  ray_status : RayStatus;
  interal_ip : option string
}.

(** What the node provider hands back for a created node. *)
Module CloudInstance.
Record t : Type := mk {
  cloud_instance_id : string;
  internal_ip : string;
  external_ip : string
}.
End CloudInstance.

(** Attribute assignments [instance.f = v]. *)
Definition set_status (i : Instance) (s : Status) : Instance :=
  mkInstance (instance_id i) (instance_type i) s (version i)
             (cloud_instance_id i) (internal_ip i) (external_ip i)
             (ray_status i) (interal_ip i).

Definition set_version (i : Instance) (v : Z) : Instance :=
  mkInstance (instance_id i) (instance_type i) (status i) v
             (cloud_instance_id i) (internal_ip i) (external_ip i)
             (ray_status i) (interal_ip i).

Definition set_cloud_instance_id (i : Instance) (c : string) : Instance :=
  mkInstance (instance_id i) (instance_type i) (status i) (version i)
             c (internal_ip i) (external_ip i)
             (ray_status i) (interal_ip i).

Definition set_interal_ip (i : Instance) (a : string) : Instance :=
  mkInstance (instance_id i) (instance_type i) (status i) (version i)
             (cloud_instance_id i) (internal_ip i) (external_ip i)
             (ray_status i) (Some a).

Definition set_external_ip (i : Instance) (a : string) : Instance :=
  mkInstance (instance_id i) (instance_type i) (status i) (version i)
             (cloud_instance_id i) (internal_ip i) a
             (ray_status i) (interal_ip i).

Definition set_ray_status (i : Instance) (r : RayStatus) : Instance :=
  mkInstance (instance_id i) (instance_type i) (status i) (version i)
             (cloud_instance_id i) (internal_ip i) (external_ip i)
             r (interal_ip i).

(** ** The collaborators, as interfaces *)

(** [InstanceStorage]: the three methods the launcher calls.
    [get_instances] is a read; [upsert_instance instance expected st]
    returns [(success, version)] and the next storage state; [pop] is the
    method called in the pairing loop, [None] standing for the call
    raising. *)
Class InstanceStorage (St : Type) : Type := {
  get_instances : list Status -> St -> list (string * Instance);
  upsert_instance : Instance -> Z -> St -> (bool * Z) * St;
  pop : St -> option Instance * St
}.

(** [NodeProvider]: [create_nodes instance_type count] and
    [terminate_nodes cloud_instance_ids]. *)
Class NodeProvider (Pr : Type) : Type := {
  create_nodes : string -> nat -> Pr -> list CloudInstance.t * Pr;
  terminate_nodes : list string -> Pr -> Pr
}.

(** ** Calls made by the launcher *)

Inductive Event : Type :=
| EvGet (status_filter : list Status)
| EvUpsert (instance : Instance) (expected : Z) (success : bool) (v : Z)
| EvPop (r : option Instance)
| EvCreate (ty : string) (count : nat) (created : list CloudInstance.t)
| EvTerminate (ids : list string)
| EvSubmit (ty : string) (chunk : list Instance).

(** Exceptions the launcher's own code can raise, plus the one standing for
    a raising [pop]. *)
Inductive Exn : Type :=
| AssertionError
| ValueError
| StorageError.

(** ** Python helpers *)

(** [l.pop()]: the last element and the list without it. *)
Fixpoint list_pop {A : Type} (l : list A) : option (A * list A) :=
  match l with
  | [] => None
  | x :: r =>
      match list_pop r with
      | None => Some (x, [])
      | Some (y, r') => Some (y, x :: r')
      end
  end.

(** [range(start, stop, step)]; [None] is the [ValueError] of a zero step. *)
Definition range (start stop step : Z) : option (list Z) :=
  if step =? 0 then None
  else
    let n := if 0 <? step then (stop - start + step - 1) / step
             else (start - stop - step - 1) / (- step) in
    Some (map (fun k => start + Z.of_nat k * step) (seq 0 (Z.to_nat n))).

(** An index of a slice, brought into [0, len]. *)
Definition clamp_index (len k : Z) : Z :=
  if k <? 0 then Z.max 0 (k + len) else Z.min k len.

(** [l[lo:hi]]. *)
Definition slice {A : Type} (l : list A) (lo hi : Z) : list A :=
  let len := Z.of_nat (length l) in
  let lo' := clamp_index len lo in
  let hi' := clamp_index len hi in
  firstn (Z.to_nat (hi' - lo')) (skipn (Z.to_nat lo') l).

(** [instances_by_type[ty].append(instance)] on a [defaultdict(list)]: keys
    keep the order of their first insertion. *)
Fixpoint dict_append (d : list (string * list Instance)) (ty : string)
         (i : Instance) : list (string * list Instance) :=
  match d with
  | [] => [(ty, [i])]
  | (k, l) :: r =>
      if String.eqb k ty then (k, l ++ [i]) :: r
      else (k, l) :: dict_append r ty i
  end.

(** ** The launcher *)

Section Launcher.

Context {St Pr : Type} `{InstanceStorage St} `{NodeProvider Pr}.

(** [self]: the two collaborators, the configuration, and the calls made
    so far (submissions to [_launch_instance_executor] included). *)
Record InstanceLauncher : Type := mkLauncher {
  _instance_storage : St;
  _node_provider : Pr;
  _max_concurrent_requests : Z;
  _max_nodes_per_request : Z;
  calls : list Event
}.

(** Result of running a method: it returns, raises, or the bound on loop
    iterations was too small. *)
Inductive Res (A : Type) : Type :=
| Ok (a : A) (self : InstanceLauncher)
| Raise (e : Exn) (self : InstanceLauncher)
| OutOfFuel.
Arguments Ok {A} a self.
Arguments Raise {A} e self.
Arguments OutOfFuel {A}.

Definition record (e : Event) (self : InstanceLauncher) (st : St) (pr : Pr)
  : InstanceLauncher :=
  mkLauncher st pr (_max_concurrent_requests self)
             (_max_nodes_per_request self) (calls self ++ [e]).

Definition call_get_instances (f : list Status) (self : InstanceLauncher)
  : list (string * Instance) * InstanceLauncher :=
  (get_instances f (_instance_storage self),
   record (EvGet f) self (_instance_storage self) (_node_provider self)).

Definition call_upsert_instance (i : Instance) (expected : Z)
           (self : InstanceLauncher) : (bool * Z) * InstanceLauncher :=
  let '((ok, v), st) := upsert_instance i expected (_instance_storage self) in
  ((ok, v), record (EvUpsert i expected ok v) self st (_node_provider self)).

Definition call_pop (self : InstanceLauncher)
  : option Instance * InstanceLauncher :=
  let '(r, st) := pop (_instance_storage self) in
  (r, record (EvPop r) self st (_node_provider self)).

Definition call_create_nodes (ty : string) (n : nat)
           (self : InstanceLauncher)
  : list CloudInstance.t * InstanceLauncher :=
  let '(created, pr) := create_nodes ty n (_node_provider self) in
  (created, record (EvCreate ty n created) self (_instance_storage self) pr).

Definition call_terminate_nodes (ids : list string)
           (self : InstanceLauncher) : InstanceLauncher :=
  record (EvTerminate ids) self (_instance_storage self)
         (terminate_nodes ids (_node_provider self)).

Definition submit (ty : string) (chunk : list Instance)
           (self : InstanceLauncher) : InstanceLauncher :=
  record (EvSubmit ty chunk) self (_instance_storage self)
         (_node_provider self).

(** *** [_launch_new_instances_by_type] *)

(** Lines 96-105: the loop that writes REQUESTED.  The append is outside
    the [if not result] branch, which only logs. *)
Fixpoint request_loop (instances instances_selected : list Instance)
         (self : InstanceLauncher) : list Instance * InstanceLauncher :=
  match instances with
  | [] => (instances_selected, self)
  | instance :: rest =>
      let instance := set_status instance REQUESTED in
      let '((result, v), self) :=
        call_upsert_instance instance (version instance) self in
      let instance := set_version instance v in
      request_loop rest (instances_selected ++ [instance]) self
  end.

(** Lines 119-123: the attribute writes on the popped instance. *)
Definition link (instance : Instance) (cloud_instance : CloudInstance.t)
  : Instance :=
  let instance :=
    set_cloud_instance_id instance
      (CloudInstance.cloud_instance_id cloud_instance) in
  let instance :=
    set_interal_ip instance (CloudInstance.internal_ip cloud_instance) in
  let instance :=
    set_external_ip instance (CloudInstance.external_ip cloud_instance) in
  let instance := set_status instance ALLOCATED in
  set_ray_status instance RAY_STATUS_UNKOWN.

(** Lines 116-134: the [while] loop, bounded by [fuel] iterations.
    [instances_selected] is only tested, never changed. *)
Fixpoint pairing_loop (fuel : nat)
         (created_cloud_instances : list CloudInstance.t)
         (instances_selected : list Instance) (self : InstanceLauncher)
  : Res (list CloudInstance.t) :=
  match list_pop created_cloud_instances, instances_selected with
  | None, _ | _, [] => Ok created_cloud_instances self
  | Some (cloud_instance, remaining), _ :: _ =>
      match fuel with
      | O => OutOfFuel
      | S fuel =>
          match call_pop self with
          | (None, self) => Raise StorageError self
          | (Some instance, self) =>
              let instance := link instance cloud_instance in
              let '((result, _), self) :=
                call_upsert_instance instance (version instance) self in
              if result then
                pairing_loop fuel remaining instances_selected self
              else
                pairing_loop fuel (remaining ++ [cloud_instance])
                             instances_selected self
          end
      end
  end.

(** Lines 144-148: the loop that writes ALLOCATION_FAILED. *)
Fixpoint failed_loop (instances_selected : list Instance)
         (self : InstanceLauncher) : InstanceLauncher :=
  match instances_selected with
  | [] => self
  | instance :: rest =>
      let instance := set_status instance ALLOCATION_FAILED in
      let '(_, self) :=
        call_upsert_instance instance (version instance) self in
      failed_loop rest self
  end.

(** The method; its value is [Some 0] for [return 0] and [None] when the
    body falls off its end. *)
Definition _launch_new_instances_by_type (fuel : nat)
           (instance_type : string) (instances : list Instance)
           (self : InstanceLauncher) : Res (option Z) :=
  let '(instances_selected, self) := request_loop instances [] self in
  match instances_selected with
  | [] => Ok (Some 0) self
  | _ :: _ =>
      let '(created_cloud_instances, self) :=
        call_create_nodes instance_type (length instances_selected) self in
      if (length created_cloud_instances <=? length instances_selected)%nat
      then
        match pairing_loop fuel created_cloud_instances
                           instances_selected self with
        | Ok created_cloud_instances self =>
            let self :=
              match created_cloud_instances with
              | [] => self
              | _ :: _ =>
                  call_terminate_nodes
                    (map CloudInstance.cloud_instance_id
                         created_cloud_instances) self
              end in
            Ok None (failed_loop instances_selected self)
        | Raise e self => Raise e self
        | OutOfFuel => OutOfFuel
        end
      else Raise AssertionError self
  end.

(** *** [_may_launch_new_instances] *)

(** Lines 63-73: the loop that writes QUEUED. *)
Fixpoint queue_loop (new_instances queued_instances : list Instance)
         (self : InstanceLauncher) : list Instance * InstanceLauncher :=
  match new_instances with
  | [] => (queued_instances, self)
  | instance :: rest =>
      let instance := set_status instance QUEUED in
      let '((success, v), self) :=
        call_upsert_instance instance (version instance) self in
      if success then
        queue_loop rest (queued_instances ++ [set_version instance v]) self
      else queue_loop rest queued_instances self
  end.

(** Lines 75-77. *)
Fixpoint group_loop (queued_instances : list Instance)
         (instances_by_type : list (string * list Instance))
  : list (string * list Instance) :=
  match queued_instances with
  | [] => instances_by_type
  | instance :: rest =>
      group_loop rest
        (dict_append instances_by_type (instance_type instance) instance)
  end.

(** Lines 80-90, for one type: one submission per index of the range. *)
Fixpoint submit_loop (instance_type : string) (instances : list Instance)
         (indices : list Z) (self : InstanceLauncher) : InstanceLauncher :=
  match indices with
  | [] => self
  | i :: rest =>
      let len := Z.of_nat (length instances) in
      let chunk :=
        slice instances i (Z.min (i + _max_nodes_per_request self) len) in
      submit_loop instance_type instances rest
                  (submit instance_type chunk self)
  end.

(** Lines 79-90. *)
Fixpoint type_loop (items : list (string * list Instance))
         (self : InstanceLauncher) : Res unit :=
  match items with
  | [] => Ok tt self
  | (instance_type, instances) :: rest =>
      match range 0 (Z.of_nat (length instances))
                  (_max_nodes_per_request self) with
      | None => Raise ValueError self
      | Some indices =>
          type_loop rest (submit_loop instance_type instances indices self)
      end
  end.

Definition _may_launch_new_instances (self : InstanceLauncher) : Res unit :=
  let '(new_instances, self) := call_get_instances [UNKNOWN] self in
  match new_instances with
  | [] => Ok tt self
  | _ :: _ =>
      let '(queued_instances, self) :=
        queue_loop (map snd new_instances) [] self in
      type_loop (group_loop queued_instances []) self
  end.

(** [queued_instances] as it stands after line 73 of a pass started in
    [self]: the instances the pass has claimed. *)
Definition claimed_instances (self : InstanceLauncher) : list Instance :=
  fst (queue_loop
         (map snd (get_instances [UNKNOWN] (_instance_storage self))) []
         (snd (call_get_instances [UNKNOWN] self))).

End Launcher.

Arguments InstanceLauncher : clear implicits.
Arguments Res : clear implicits.
Arguments Ok {St Pr A} a self.
Arguments Raise {St Pr A} e self.
Arguments OutOfFuel {St Pr A}.

(** ** Implementations of the interfaces used in the examples *)

(** Modelled from the spec: the instance registry (section 4.1), which is
    not part of the source file.  Records carry a version; an upsert applies
    only when the stored version equals the expected one (or the record does
    not exist yet), and then increments the version.  On a mismatch nothing
    is written and the stored version is returned.  [external] is the
    schedule of the other actors: its head, when present, is a write
    [(id, status)] that lands just before the launcher's next upsert.
    [pop] follows the reading of section 9, "pop an instance awaiting
    resource linkage": the first stored record whose status is REQUESTED,
    and a raise when there is none. *)
Module Registry.

Record t : Type := mk {
  records : list (string * Instance);
  external : list (option (string * Status))
}.

Fixpoint lookup (id : string) (rs : list (string * Instance))
  : option Instance :=
  match rs with
  | [] => None
  | (k, i) :: r => if String.eqb k id then Some i else lookup id r
  end.

Fixpoint write (i : Instance) (rs : list (string * Instance))
  : list (string * Instance) :=
  match rs with
  | [] => [(instance_id i, i)]
  | (k, j) :: r =>
      if String.eqb k (instance_id i) then (k, i) :: r
      else (k, j) :: write i r
  end.

(** A write by another actor: new status, version incremented. *)
Definition interfere (w : option (string * Status))
           (rs : list (string * Instance)) : list (string * Instance) :=
  match w with
  | None => rs
  | Some (id, s) =>
      match lookup id rs with
      | None => rs
      | Some i => write (set_version (set_status i s) (version i + 1)) rs
      end
  end.

(** Modelled from the spec: [upsert_instance] of the registry, which is not
    in the source file.  The other actors' scheduled write lands first; the
    write is applied when the record is new or its stored version equals
    [expected], and the version is then incremented; otherwise nothing is
    written and the stored version is returned. *)
Definition upsert (i : Instance) (expected : Z) (st : t)
  : (bool * Z) * t :=
  let rs := interfere (hd None (external st)) (records st) in
  let ext := tl (external st) in
  match lookup (instance_id i) rs with
  | None => ((true, 1), mk (write (set_version i 1) rs) ext)
  | Some stored =>
      if version stored =? expected
      then ((true, expected + 1),
            mk (write (set_version i (expected + 1)) rs) ext)
      else ((false, version stored), mk rs ext)
  end.

Definition in_filter (f : list Status) (s : Status) : bool :=
  match f with
  | [] => true
  | _ :: _ => existsb (Status_eqb s) f
  end.

(** Modelled from the spec: [get_instances] of the registry, which is not in
    the source file; the records whose status is in the filter, all of them
    for an empty filter. *)
Definition get (f : list Status) (st : t) : list (string * Instance) :=
  filter (fun kv => in_filter f (status (snd kv))) (records st).

(** Modelled from the spec: the [pop] that the pairing loop calls on the
    storage, which is not in the source file; section 9 reads it as "pop an
    instance awaiting resource linkage". *)
Definition pop_requested (st : t) : option Instance * t :=
  (option_map snd
     (find (fun kv => Status_eqb (status (snd kv)) REQUESTED) (records st)),
   st).

End Registry.

#[export] Instance Registry_storage : InstanceStorage Registry.t := {
  get_instances := Registry.get;
  upsert_instance := Registry.upsert;
  pop := Registry.pop_requested
}.

(** Modelled from the spec: a node provider (section 4.2), which is not in
    the source file.  It honours its contract: it hands out at most [count]
    nodes from its [stock], and it remembers what it was asked to
    terminate. *)
Module Cloud.

Record t : Type := mk {
  stock : list CloudInstance.t;
  terminated : list string
}.

Definition create (ty : string) (count : nat) (p : t)
  : list CloudInstance.t * t :=
  (firstn count (stock p), mk (skipn count (stock p)) (terminated p)).

Definition terminate (ids : list string) (p : t) : t :=
  mk (stock p) (terminated p ++ ids).

End Cloud.

#[export] Instance Cloud_provider : NodeProvider Cloud.t := {
  create_nodes := Cloud.create;
  terminate_nodes := Cloud.terminate
}.

(** A node provider that breaks its contract: one node more than asked. *)
Module Greedy.

Definition create (ty : string) (count : nat) (p : unit)
  : list CloudInstance.t * unit :=
  (repeat (CloudInstance.mk "x" "" "") (S count), p).

Definition terminate (ids : list string) (p : unit) : unit := p.

End Greedy.

(** A fresh record as the policy component writes it. *)
Definition new_instance (id ty : string) (s : Status) (v : Z) : Instance :=
  mkInstance id ty s v "" "" "" RAY_STATUS_UNSET None.

Definition node (id ip ext : string) : CloudInstance.t :=
  CloudInstance.mk id ip ext.

Definition launcher (st : Registry.t) (pr : Cloud.t) (per_request : Z)
  : InstanceLauncher Registry.t Cloud.t :=
  mkLauncher st pr 1 per_request [].

(** ** Scenarios *)

Definition i1 : Instance := new_instance "i1" "small" QUEUED 1.
Definition i2 : Instance := new_instance "i2" "small" QUEUED 1.
Definition g1 : Instance := new_instance "g1" "gpu" QUEUED 1.
Definition g2 : Instance := new_instance "g2" "gpu" QUEUED 1.
Definition u1 : Instance := new_instance "u1" "small" UNKNOWN 0.
Definition u2 : Instance := new_instance "u2" "gpu" UNKNOWN 0.
Definition u3 : Instance := new_instance "u3" "small" UNKNOWN 0.
Definition u4 : Instance := new_instance "u4" "small" UNKNOWN 0.
Definition r1 : CloudInstance.t := node "c1" "10.0.0.1" "34.0.0.1".
Definition r2 : CloudInstance.t := node "c2" "10.0.0.2" "34.0.0.2".

Definition registry_of (l : list Instance)
           (ext : list (option (string * Status))) : Registry.t :=
  Registry.mk (map (fun i => (instance_id i, i)) l) ext.

(** Two queued "gpu" instances, a provider that can create one node. *)
Definition partial_fulfilment : Res Registry.t Cloud.t (option Z) :=
  _launch_new_instances_by_type 4 "gpu" [g1; g2]
    (launcher (registry_of [g1; g2] []) (Cloud.mk [r1] []) 5).

(** One queued instance that another actor cancels before the launcher's
    REQUESTED write; the provider has nothing to give. *)
Definition cancelled_before_request : Res Registry.t Cloud.t (option Z) :=
  _launch_new_instances_by_type 4 "small" [i1]
    (launcher (registry_of [i1] [Some ("i1"%string, TERMINATING)])
              (Cloud.mk [] []) 5).

(** The same, with a provider that can create a node. *)
Definition cancelled_before_request_with_stock
  : Res Registry.t Cloud.t (option Z) :=
  _launch_new_instances_by_type 4 "small" [i1]
    (launcher (registry_of [i1] [Some ("i1"%string, TERMINATING)])
              (Cloud.mk [r1] []) 5).

(** One queued instance, one node created for it, nobody else writing. *)
Definition one_for_one : Res Registry.t Cloud.t (option Z) :=
  _launch_new_instances_by_type 4 "small" [i1]
    (launcher (registry_of [i1] []) (Cloud.mk [r1] []) 5).

(** Two queued instances, two nodes created; another actor writes "i1"
    just before the launcher's third upsert, which is the first ALLOCATED
    write. *)
Definition first_allocated_write_fails : Res Registry.t Cloud.t (option Z) :=
  _launch_new_instances_by_type 8 "small" [i1; i2]
    (launcher (registry_of [i1; i2]
                           [None; None; Some ("i1"%string, REQUESTED)])
              (Cloud.mk [r1; r2] []) 5).

(** A pass over four UNKNOWN instances of two types, two nodes per
    request; another actor writes "u3" before the launcher's third
    upsert. *)
Definition pass_over_four : Res Registry.t Cloud.t unit :=
  _may_launch_new_instances
    (launcher (registry_of [u1; u2; u3; u4]
                           [None; None; Some ("u3"%string, TERMINATING)])
              (Cloud.mk [] []) 2).



(** ** Reading a trace *)

(** Cloud-instance ids carried by the successful ALLOCATED writes. *)
Definition linked_of (e : Event) : list string :=
  match e with
  | EvUpsert i _ true _ =>
      match status i with
      | ALLOCATED => [cloud_instance_id i]
      | _ => []
      end
  | _ => []
  end.

Definition terminated_of (e : Event) : list string :=
  match e with
  | EvTerminate ids => ids
  | _ => []
  end.

Definition created_of (e : Event) : list CloudInstance.t :=
  match e with
  | EvCreate _ _ cs => cs
  | _ => []
  end.

Definition linked (tr : list Event) : list string := flat_map linked_of tr.
Definition terminated (tr : list Event) : list string :=
  flat_map terminated_of tr.
Definition created (tr : list Event) : list CloudInstance.t :=
  flat_map created_of tr.

(** The compare-and-set writes of a trace: target id, status written,
    outcome. *)
Definition cas_of (e : Event) : list (string * Status * bool) :=
  match e with
  | EvUpsert i _ ok _ => [(instance_id i, status i, ok)]
  | _ => []
  end.

Definition cas_writes (tr : list Event) : list (string * Status * bool) :=
  flat_map cas_of tr.

(** The [create_nodes] requests of a trace: type and count. *)
Definition request_of (e : Event) : list (string * nat) :=
  match e with
  | EvCreate ty n _ => [(ty, n)]
  | _ => []
  end.

Definition create_requests (tr : list Event) : list (string * nat) :=
  flat_map request_of tr.

(** The chunks submitted for a type, in submission order. *)
Definition chunk_of (ty : string) (e : Event) : list (list Instance) :=
  match e with
  | EvSubmit ty' chunk => if String.eqb ty' ty then [chunk] else []
  | _ => []
  end.

Definition chunks_of (ty : string) (tr : list Event) : list (list Instance) :=
  flat_map (chunk_of ty) tr.

(** A stretch of trace made of upserts only, all writing status [s]. *)
Definition writes_only (s : Status) (tr : list Event) : Prop :=
  Forall (fun e => match e with
                   | EvUpsert i _ _ _ => status i = s
                   | _ => False
                   end) tr.

(** The launcher a run ends in ([None] when the iteration bound ran out). *)
Definition final {St Pr A : Type} (r : Res St Pr A)
  : option (InstanceLauncher St Pr) :=
  match r with
  | Ok _ self => Some self
  | Raise _ self => Some self
  | OutOfFuel => None
  end.

Definition calls_of {St Pr A : Type} (r : Res St Pr A) : list Event :=
  match final r with
  | Some self => calls self
  | None => []
  end.

(** One queued instance and the provider that creates one node too many;
    the instance of the interface is given explicitly. *)
Definition over_creation : Res Registry.t unit (option Z) :=
  @_launch_new_instances_by_type
    Registry.t unit Registry_storage
    {| create_nodes := Greedy.create; terminate_nodes := Greedy.terminate |}
    4 "small" [i1] (mkLauncher (registry_of [i1] []) tt 1 5 []).

(** What a record of the registry says about its cloud resource. *)
Definition linkage (i : Instance)
  : Status * string * string * string * option string :=
  (status i, cloud_instance_id i, internal_ip i, external_ip i,
   interal_ip i).

Definition stored {A : Type} (id : string) (r : Res Registry.t Cloud.t A)
  : option Instance :=
  match final r with
  | Some self => Registry.lookup id (Registry.records (_instance_storage self))
  | None => None
  end.

(** The consecutive pieces of at most [m] elements of a list; this is what
    the slices taken at the indices of [range(0, len(l), m)] amount to when
    [m] is positive (lemma [submit_loop_calls] and [range_slices]). *)
Definition pieces {A : Type} (m : Z) (l : list A) : list (list A) :=
  map (fun k => firstn (Z.to_nat m) (skipn (k * Z.to_nat m) l))
      (seq 0 (Z.to_nat ((Z.of_nat (length l) + m - 1) / m))).

(** All the instances filed under a type in [instances_by_type]. *)
Definition gather (ty : string) (d : list (string * list Instance))
  : list Instance :=
  flat_map (fun kv => if String.eqb (fst kv) ty then snd kv else []) d.

(** [instances_by_type] is well formed: every list holds instances of its
    key's type. *)
Definition typed (d : list (string * list Instance)) : Prop :=
  Forall (fun kv => Forall (fun i => instance_type i = fst kv) (snd kv)) d.

(** The write of the QUEUED loop for an instance and the answer it got. *)
Definition queued_write (p : Instance * (bool * Z)) : Event :=
  EvUpsert (set_status (fst p) QUEUED) (version (fst p))
           (fst (snd p)) (snd (snd p)).

Definition won (p : Instance * (bool * Z)) : bool := fst (snd p).

(** The instance as it enters [queued_instances]. *)
Definition claimed (p : Instance * (bool * Z)) : Instance :=
  set_version (set_status (fst p) QUEUED) (snd (snd p)).



Definition is_submit (e : Event) : bool :=
  match e with
  | EvSubmit _ _ => true
  | _ => false
  end.

(** ** [notify] *)

(** Modelled from the spec: [InstanceUpdateEvent] (section 4.1), declared
    with the storage and not in the source file; [notify] reads its
    [new_status] only. *)
Module InstanceUpdateEvent.
Record t : Type := mk {
  instance_id : string;
  old_status : Status;
  new_status : Status
}.
End InstanceUpdateEvent.

(** What is handed to [self._executor]; the launcher only ever submits
    [self._may_launch_new_instances]. *)
Inductive Task : Type :=
| may_launch_new_instances_task.

(** [any(l)] on a list of booleans. *)
Definition any (l : list bool) : bool := existsb (fun b => b) l.

(** Lines 46-52.  [_executor] is the queue of the single-worker executor;
    [submit] appends to it. *)
Definition notify (events : list InstanceUpdateEvent.t)
           (_executor : list Task) : list Task :=
  let has_new_request :=
    any (map (fun event =>
                Status_eqb (InstanceUpdateEvent.new_status event) UNKNOWN)
             events) in
  if has_new_request then _executor ++ [may_launch_new_instances_task]
  else _executor.

(** ** The shape of the traces *)

(** The write of the REQUESTED loop for an instance and the answer it got,
    and the instance as it enters [instances_selected]. *)
Definition requested_write (p : Instance * (bool * Z)) : Event :=
  EvUpsert (set_status (fst p) REQUESTED) (version (fst p))
           (fst (snd p)) (snd (snd p)).

Definition requested (p : Instance * (bool * Z)) : Instance :=
  set_version (set_status (fst p) REQUESTED) (snd (snd p)).

(** The write of the ALLOCATION_FAILED loop for a selected instance and the
    answer it got. *)
Definition failed_write (p : Instance * (bool * Z)) : Event :=
  EvUpsert (set_status (fst p) ALLOCATION_FAILED) (version (fst p))
           (fst (snd p)) (snd (snd p)).

(** The calls of the pairing loop started with a pool of cloud instances,
    and how it ends: [Some pool'] when the loop is left with [pool'],
    [None] when [pop] raises.  Each iteration pops the last cloud instance
    of the pool and an instance from the storage, and writes the linked
    instance with the version it was popped with; a failed write leaves the
    pool as it was. *)
Inductive pairing_trace
  : list CloudInstance.t -> list Event -> option (list CloudInstance.t)
    -> Prop :=
| pairing_exit (pool : list CloudInstance.t) :
    pairing_trace pool [] (Some pool)
| pairing_raise (pool : list CloudInstance.t) :
    pairing_trace pool [EvPop None] None
| pairing_linked (rem : list CloudInstance.t) (c : CloudInstance.t)
                 (popped : Instance) (v : Z) (tr : list Event)
                 (out : option (list CloudInstance.t)) :
    pairing_trace rem tr out ->
    pairing_trace (rem ++ [c])
      (EvPop (Some popped)
       :: EvUpsert (link popped c) (version popped) true v :: tr) out
| pairing_retry (rem : list CloudInstance.t) (c : CloudInstance.t)
                (popped : Instance) (v : Z) (tr : list Event)
                (out : option (list CloudInstance.t)) :
    pairing_trace (rem ++ [c]) tr out ->
    pairing_trace (rem ++ [c])
      (EvPop (Some popped)
       :: EvUpsert (link popped c) (version popped) false v :: tr) out.

(** The ALLOCATED writes of a trace: the cloud-instance id written and the
    outcome. *)
Definition attempt_of (e : Event) : list (string * bool) :=
  match e with
  | EvUpsert i _ ok _ =>
      match status i with
      | ALLOCATED => [(cloud_instance_id i, ok)]
      | _ => []
      end
  | _ => []
  end.

Definition attempts (tr : list Event) : list (string * bool) :=
  flat_map attempt_of tr.

(** The chunks submitted, whatever their type, in submission order. *)
Definition any_chunk_of (e : Event) : list (list Instance) :=
  match e with
  | EvSubmit _ chunk => [chunk]
  | _ => []
  end.

Definition all_chunks (tr : list Event) : list (list Instance) :=
  flat_map any_chunk_of tr.

(** The calls to the storage's [pop] and to the provider, in a trace. *)
Definition is_provider_or_pop (e : Event) : bool :=
  match e with
  | EvPop _ | EvCreate _ _ _ | EvTerminate _ => true
  | _ => false
  end.

(** A storage on which every write fails and [pop] always has a record to
    give: the records are held by another actor for good. *)
Module Held.

Inductive t : Type := held.

Definition get (f : list Status) (st : t) : list (string * Instance) := [].

Definition upsert (i : Instance) (expected : Z) (st : t) : (bool * Z) * t :=
  ((false, expected), st).

Definition pop_any (st : t) : option Instance * t :=
  (Some (mkInstance "h" "small" REQUESTED 7 "" "" "" RAY_STATUS_UNSET None),
   st).

End Held.

#[export] Instance Held_storage : InstanceStorage Held.t := {
  get_instances := Held.get;
  upsert_instance := Held.upsert;
  pop := Held.pop_any
}.

(** One instance on the held storage, one node created for it. *)
Definition held_launch (fuel : nat) : Res Held.t Cloud.t (option Z) :=
  _launch_new_instances_by_type fuel "small" [i1]
    (mkLauncher Held.held (Cloud.mk [r1] []) 1 5 []).

(** Two queued instances, two nodes created, nobody else writing. *)
Definition two_for_two : Res Registry.t Cloud.t (option Z) :=
  _launch_new_instances_by_type 4 "small" [i1; i2]
    (launcher (registry_of [i1; i2] []) (Cloud.mk [r1; r2] []) 5).

(** The pass of [pass_over_four] with other values of
    [max_nodes_per_request]. *)
Definition pass_with (per_request : Z) : Res Registry.t Cloud.t unit :=
  _may_launch_new_instances
    (launcher (registry_of [u1; u2; u3; u4]
                           [None; None; Some ("u3"%string, TERMINATING)])
              (Cloud.mk [] []) per_request).

(** The "gpu" chunk that [pass_over_four] submits, and its launch on a
    storage that holds its instance and a provider with one node. *)
Definition gpu_chunk : list Instance :=
  [set_version (set_status u2 QUEUED) 1].

Definition gpu_chunk_launch : Res Registry.t Cloud.t (option Z) :=
  _launch_new_instances_by_type 4 "gpu" gpu_chunk
    (launcher (registry_of gpu_chunk []) (Cloud.mk [r1] []) 2).

(** The records of the registry that end ALLOCATED, with the cloud
    instance each one holds. *)
Definition allocated_records {A : Type} (r : Res Registry.t Cloud.t A)
  : list (string * string) :=
  match final r with
  | Some self =>
      flat_map (fun kv =>
                  match status (snd kv) with
                  | ALLOCATED => [(fst kv, cloud_instance_id (snd kv))]
                  | _ => []
                  end)
               (Registry.records (_instance_storage self))
  | None => []
  end.

(** The ids the provider was asked to terminate. *)
Definition provider_terminated {A : Type} (r : Res Registry.t Cloud.t A)
  : list string :=
  match final r with
  | Some self => Cloud.terminated (_node_provider self)
  | None => []
  end.

(** Two queued instances, two nodes created; another actor cancels "i1"
    just before the launcher's third upsert, which is the first ALLOCATED
    write. *)
Definition cancelled_during_pairing : Res Registry.t Cloud.t (option Z) :=
  _launch_new_instances_by_type 8 "small" [i1; i2]
    (launcher (registry_of [i1; i2]
                           [None; None; Some ("i1"%string, TERMINATING)])
              (Cloud.mk [r1; r2] []) 5).

Definition i3 : Instance := new_instance "i3" "small" QUEUED 1.
Definition r3 : CloudInstance.t := node "c3" "10.0.0.3" "34.0.0.3".

(** Three queued instances, three nodes created; after "i1" has been
    written ALLOCATED, another actor puts it back to REQUESTED (just
    before the launcher's fifth upsert). *)
Definition redriven_during_pairing : Res Registry.t Cloud.t (option Z) :=
  _launch_new_instances_by_type 8 "small" [i1; i2; i3]
    (launcher (registry_of [i1; i2; i3]
                           [None; None; None; None;
                            Some ("i1"%string, REQUESTED)])
              (Cloud.mk [r1; r2; r3] []) 5).

(** * Properties *)

(** ** Python helpers *)

Lemma list_pop_none {A : Type} (l : list A) : list_pop l = None -> l = [].
Proof.
  destruct l as [|x r]; [reflexivity|].
  simpl. destruct (list_pop r) as [[y r']|]; discriminate.
Qed.

Lemma list_pop_some {A : Type} (l : list A) (x : A) (r : list A) :
  list_pop l = Some (x, r) -> l = r ++ [x].
Proof.
  revert x r. induction l as [|a l IH]; intros x r Hp; [discriminate|].
  simpl in Hp. destruct (list_pop l) as [[y r']|] eqn:E.
  - inversion Hp; subst. simpl. f_equal. now apply IH.
  - inversion Hp; subst. apply list_pop_none in E. now subst.
Qed.

Lemma list_pop_snoc {A : Type} (l : list A) (x : A) :
  list_pop (l ++ [x]) = Some (x, l).
Proof.
  induction l as [|a l IH]; [reflexivity|].
  simpl. now rewrite IH.
Qed.

(** ** Traces *)

Lemma writes_only_quiet (s : Status) (tr : list Event) :
  writes_only s tr -> s <> ALLOCATED ->
  linked tr = [] /\ terminated tr = [] /\ created tr = []
  /\ create_requests tr = [].
Proof.
  intros Hw Hs. induction Hw as [|e tr He _ IH]; [now repeat split|].
  destruct IH as (IH1 & IH2 & IH3 & IH4).
  destruct e as [f|i x ok v|r|ty n cs|ids|ty chunk]; try contradiction.
  unfold linked, terminated, created, create_requests in *; simpl.
  rewrite IH1, IH2, IH3, IH4.
  repeat split.
  destruct ok; [|reflexivity].
  rewrite He. destruct s; try reflexivity. now elim Hs.
Qed.

Lemma writes_only_app (s : Status) (a b : list Event) :
  writes_only s a -> writes_only s b -> writes_only s (a ++ b).
Proof. intros Ha Hb. apply Forall_app. now split. Qed.

Section LauncherFacts.

Context {St Pr : Type} `{InstanceStorage St} `{NodeProvider Pr}.

Implicit Types self : InstanceLauncher St Pr.

Lemma call_upsert_instance_calls (i : Instance) (x : Z) self ok v self' :
  call_upsert_instance i x self = ((ok, v), self') ->
  calls self' = calls self ++ [EvUpsert i x ok v] /\
  _max_nodes_per_request self' = _max_nodes_per_request self.
Proof.
  unfold call_upsert_instance.
  destruct (upsert_instance i x (_instance_storage self)) as [[ok' v'] st].
  intros E. inversion E; subst. now split.
Qed.

(** The REQUESTED loop: one write per instance of the chunk, and every
    instance is kept whatever the outcome of its write. *)
Lemma request_loop_spec (instances acc : list Instance) self :
  exists tr,
    calls (snd (request_loop instances acc self)) = calls self ++ tr /\
    writes_only REQUESTED tr /\
    map (fun c => fst (fst c)) (cas_writes tr) = map instance_id instances /\
    map instance_id (fst (request_loop instances acc self))
    = map instance_id (acc ++ instances).
Proof.
  revert acc self. induction instances as [|i rest IH]; intros acc self.
  - exists []. simpl. rewrite !app_nil_r. repeat split. constructor.
  - simpl.
    destruct (call_upsert_instance (set_status i REQUESTED) (version i) self)
      as [[ok v] self1] eqn:E.
    apply call_upsert_instance_calls in E. destruct E as [E _].
    destruct (IH (acc ++ [set_version (set_status i REQUESTED) v]) self1)
      as (tr & Hc & Hw & Hids & Hsel).
    exists (EvUpsert (set_status i REQUESTED) (version i) ok v :: tr).
    repeat split.
    + rewrite Hc, E, <- app_assoc. reflexivity.
    + constructor; [reflexivity | assumption].
    + unfold cas_writes in *. simpl. now rewrite Hids.
    + rewrite Hsel, <- app_assoc, !map_app. reflexivity.
Qed.

Lemma request_loop_length (instances acc : list Instance) self :
  length (fst (request_loop instances acc self))
  = (length acc + length instances)%nat.
Proof.
  destruct (request_loop_spec instances acc self) as (_ & _ & _ & _ & Hs).
  apply (f_equal (@length _)) in Hs.
  now rewrite !length_map, length_app in Hs.
Qed.

(** The ALLOCATION_FAILED loop: one write per instance it is given, with
    the version the instance carries. *)
Lemma failed_loop_spec (selected : list Instance) self :
  exists tr,
    calls (failed_loop selected self) = calls self ++ tr /\
    writes_only ALLOCATION_FAILED tr /\
    map (fun c => fst (fst c)) (cas_writes tr) = map instance_id selected.
Proof.
  revert self. induction selected as [|i rest IH]; intros self.
  - exists []. simpl. rewrite app_nil_r. repeat split. constructor.
  - simpl.
    destruct (call_upsert_instance (set_status i ALLOCATION_FAILED)
                                   (version i) self)
      as [[ok v] self1] eqn:E.
    apply call_upsert_instance_calls in E. destruct E as [E _].
    destruct (IH self1) as (tr & Hc & Hw & Hids).
    exists (EvUpsert (set_status i ALLOCATION_FAILED) (version i) ok v :: tr).
    repeat split.
    + rewrite Hc, E, <- app_assoc. reflexivity.
    + constructor; [reflexivity | assumption].
    + unfold cas_writes in *. simpl. now rewrite Hids.
Qed.

(** The pairing loop, when it ends: nothing is created or terminated
    inside it, the resources it linked together with those it leaves are
    the ones it was given, and it leaves none unless there was no
    selected instance to begin with. *)
Lemma pairing_loop_spec (fuel : nat) :
  forall (pool : list CloudInstance.t) (selected : list Instance)
         self (pool' : list CloudInstance.t) self',
    pairing_loop fuel pool selected self = Ok pool' self' ->
    exists tr,
      calls self' = calls self ++ tr /\
      Permutation
        (linked tr ++ map CloudInstance.cloud_instance_id pool')
        (map CloudInstance.cloud_instance_id pool) /\
      terminated tr = [] /\ created tr = [] /\ create_requests tr = [] /\
      (selected <> [] -> pool' = []).
Proof.
  induction fuel as [|fuel IH]; intros pool selected self pool' self' Hrun.
  - simpl in Hrun.
    destruct (list_pop pool) as [[c rem]|] eqn:Ep.
    + destruct selected; [|discriminate].
      inversion Hrun; subst. exists []. rewrite app_nil_r.
      repeat split; try reflexivity. intros C; now elim C.
    + inversion Hrun; subst. apply list_pop_none in Ep. subst.
      exists []. rewrite app_nil_r. now repeat split.
  - simpl in Hrun.
    destruct (list_pop pool) as [[c rem]|] eqn:Ep.
    + destruct selected as [|s0 sel].
      { inversion Hrun; subst. exists []. rewrite app_nil_r.
        repeat split; try reflexivity. intros C; now elim C. }
      apply list_pop_some in Ep. subst pool.
      unfold call_pop in Hrun.
      destruct (pop (_instance_storage self)) as [[inst|] st]; simpl in Hrun;
        [|discriminate].
      match type of Hrun with
      | context [call_upsert_instance ?i ?x ?s] =>
          destruct (call_upsert_instance i x s) as [[ok v] self2] eqn:E
      end.
      apply call_upsert_instance_calls in E. destruct E as [E _].
      simpl in E.
      destruct ok.
      * apply IH in Hrun. destruct Hrun as (tr & Hc & Hp & Ht & Hcr & Hrq & Hz).
        eexists (EvPop (Some inst) :: EvUpsert _ _ true v :: tr).
        repeat split.
        -- rewrite Hc, E, <- !app_assoc. reflexivity.
        -- unfold linked in *. simpl.
           rewrite map_app. simpl.
           eapply perm_trans; [|apply Permutation_cons_append].
           now constructor.
        -- exact Ht.
        -- exact Hcr.
        -- exact Hrq.
        -- exact Hz.
      * apply IH in Hrun. destruct Hrun as (tr & Hc & Hp & Ht & Hcr & Hrq & Hz).
        eexists (EvPop (Some inst) :: EvUpsert _ _ false v :: tr).
        repeat split.
        -- rewrite Hc, E, <- !app_assoc. reflexivity.
        -- exact Hp.
        -- exact Ht.
        -- exact Hcr.
        -- exact Hrq.
        -- exact Hz.
    + inversion Hrun; subst. apply list_pop_none in Ep. subst.
      exists []. rewrite app_nil_r. now repeat split.
Qed.

(** However the pairing loop ends, it makes no provider call. *)
Lemma pairing_loop_provider_calls (fuel : nat) :
  forall (pool : list CloudInstance.t) (selected : list Instance)
         self self',
    final (pairing_loop fuel pool selected self) = Some self' ->
    exists tr,
      calls self' = calls self ++ tr /\
      terminated tr = [] /\ created tr = [] /\ create_requests tr = [].
Proof.
  induction fuel as [|fuel IH]; intros pool selected self self' Hrun;
    simpl in Hrun;
    destruct (list_pop pool) as [[c rem]|];
    try (destruct selected as [|s0 sel]);
    try discriminate;
    try (inversion Hrun; subst; exists []; rewrite app_nil_r;
         now repeat split).
  unfold call_pop in Hrun.
  destruct (pop (_instance_storage self)) as [[inst|] st]; simpl in Hrun.
  - match type of Hrun with
    | context [call_upsert_instance ?i ?x ?s] =>
        destruct (call_upsert_instance i x s) as [[ok v] self2] eqn:E
    end.
    apply call_upsert_instance_calls in E. destruct E as [E _].
    simpl in E.
    destruct ok; apply IH in Hrun;
      destruct Hrun as (tr & Hc & Ht & Hcr & Hrq);
      eexists (EvPop (Some inst) :: EvUpsert _ _ _ v :: tr);
      (repeat split; [rewrite Hc, E, <- !app_assoc; reflexivity | ..]);
      assumption.
  - inversion Hrun; subst. exists [EvPop None]. now repeat split.
Qed.

(** The shape of a run of [_launch_new_instances_by_type] that returns. *)
Lemma launch_returns (fuel : nat) (ty : string) (instances : list Instance)
      self r self' :
  _launch_new_instances_by_type fuel ty instances self = Ok r self' ->
  (instances = [] /\ r = Some 0 /\ calls self' = calls self) \/
  (instances <> [] /\ r = None /\
   exists tr_req cs tr_pair tr_fail,
     calls self'
     = calls self ++ tr_req ++ [EvCreate ty (length instances) cs]
                  ++ tr_pair ++ tr_fail /\
     writes_only REQUESTED tr_req /\
     map (fun c => fst (fst c)) (cas_writes tr_req)
     = map instance_id instances /\
     (length cs <= length instances)%nat /\
     Permutation (linked tr_pair)
                 (map CloudInstance.cloud_instance_id cs) /\
     terminated tr_pair = [] /\ created tr_pair = [] /\
     create_requests tr_pair = [] /\
     writes_only ALLOCATION_FAILED tr_fail /\
     map (fun c => fst (fst c)) (cas_writes tr_fail)
     = map instance_id instances).
Proof.
  unfold _launch_new_instances_by_type.
  destruct (request_loop_spec instances [] self)
    as (tr_req & Hc1 & Hw1 & Hids1 & Hsel).
  pose proof (request_loop_length instances [] self) as Hlen.
  destruct (request_loop instances [] self) as [selected self1].
  simpl in Hc1, Hsel, Hlen.
  destruct selected as [|s0 sel].
  - intros E. inversion E; subst. left.
    destruct instances; [|discriminate].
    simpl in Hids1. destruct tr_req.
    + rewrite app_nil_r in Hc1. now repeat split.
    + inversion Hw1; subst.
      destruct e; try contradiction. discriminate.
  - unfold call_create_nodes.
    destruct (create_nodes ty (length (s0 :: sel)) (_node_provider self1))
      as [cs pr].
    destruct (length cs <=? length (s0 :: sel))%nat eqn:Hle; [|discriminate].
    apply Nat.leb_le in Hle.
    match goal with
    | |- context [pairing_loop fuel cs (s0 :: sel) ?s] =>
        destruct (pairing_loop fuel cs (s0 :: sel) s) as [pool' self3| |]
          eqn:Ep; try discriminate
    end.
    apply pairing_loop_spec in Ep.
    destruct Ep as (tr_pair & Hc3 & Hperm & Ht & Hcr & Hrq & Hz).
    rewrite (Hz ltac:(discriminate)) in *. simpl in Hperm.
    rewrite app_nil_r in Hperm.
    destruct (failed_loop_spec (s0 :: sel) self3)
      as (tr_fail & Hc4 & Hw4 & Hids4).
    set (fin := failed_loop (s0 :: sel) self3) in *.
    intros E. injection E as <- <-. right.
    split; [intros C; subst; discriminate|].
    split; [reflexivity|].
    exists tr_req, cs, tr_pair, tr_fail.
    rewrite Hlen in *.
    repeat split; try assumption.
    + rewrite Hc4, Hc3. simpl. rewrite Hc1, <- !app_assoc. reflexivity.
    + rewrite Hids4. exact Hsel.
Qed.

(** When [pop] always has an instance to give and every write succeeds,
    the pairing loop returns, with an empty pool, within as many iterations
    as there are cloud resources. *)
Lemma pairing_loop_returns_when_writes_succeed :
  (forall st : St, exists i st', pop st = (Some i, st')) ->
  (forall i x (st : St), fst (fst (upsert_instance i x st)) = true) ->
  forall (pool : list CloudInstance.t) (selected : list Instance)
         (fuel : nat) self,
    selected <> [] -> (length pool <= fuel)%nat ->
    exists self', pairing_loop fuel pool selected self = Ok [] self'.
Proof.
  intros Hpop Hup pool selected.
  induction pool as [|c rem IH] using rev_ind; intros fuel self Hsel Hfuel.
  - exists self. destruct fuel; reflexivity.
  - rewrite length_app in Hfuel. simpl in Hfuel.
    destruct fuel as [|fuel]; [lia|].
    destruct selected as [|s0 sel]; [now elim Hsel|].
    simpl. rewrite list_pop_snoc.
    unfold call_pop.
    destruct (Hpop (_instance_storage self)) as (i & st' & ->).
    unfold call_upsert_instance. simpl.
    match goal with
    | |- context [upsert_instance ?a ?b ?c] =>
        pose proof (Hup a b c) as Hok;
        destruct (upsert_instance a b c) as [[ok v] st2]
    end.
    simpl in Hok. subst ok.
    apply IH; [discriminate | lia].
Qed.

(** The pairing loop raises only when [pop] does. *)
Lemma pairing_loop_raises (fuel : nat) :
  forall (pool : list CloudInstance.t) (selected : list Instance)
         self e self',
    pairing_loop fuel pool selected self = Raise e self' ->
    e = StorageError.
Proof.
  induction fuel as [|fuel IH]; intros pool selected self e self' Hrun;
    simpl in Hrun;
    destruct (list_pop pool) as [[c rem]|];
    try (destruct selected as [|s0 sel]);
    try discriminate.
  unfold call_pop in Hrun.
  destruct (pop (_instance_storage self)) as [[inst|] st]; simpl in Hrun.
  - match type of Hrun with
    | context [call_upsert_instance ?i ?x ?s] =>
        destruct (call_upsert_instance i x s) as [[ok v] self2]
    end.
    destruct ok; now apply IH in Hrun.
  - now inversion Hrun.
Qed.

(** The shape of any run of [_launch_new_instances_by_type] that ends,
    by returning or by raising: for a chunk that is not empty, the
    provider is asked for as many nodes as the chunk has instances, and
    is asked nothing else. *)
Lemma launch_ends (fuel : nat) (ty : string) (instances : list Instance)
      self self' :
  final (_launch_new_instances_by_type fuel ty instances self) = Some self' ->
  (instances = [] /\ calls self' = calls self) \/
  (instances <> [] /\
   exists tr_req cs tr_rest,
     calls self'
     = calls self ++ tr_req ++ [EvCreate ty (length instances) cs]
                  ++ tr_rest /\
     writes_only REQUESTED tr_req /\
     terminated tr_rest = [] /\ created tr_rest = [] /\
     create_requests tr_rest = []).
Proof.
  unfold _launch_new_instances_by_type.
  destruct (request_loop_spec instances [] self)
    as (tr_req & Hc1 & Hw1 & Hids1 & Hsel).
  pose proof (request_loop_length instances [] self) as Hlen.
  destruct (request_loop instances [] self) as [selected self1].
  simpl in Hc1, Hsel, Hlen.
  destruct selected as [|s0 sel].
  - intros E. inversion E; subst. left.
    destruct instances; [|discriminate].
    simpl in Hids1. destruct tr_req.
    + rewrite app_nil_r in Hc1. now split.
    + inversion Hw1; subst.
      destruct e; try contradiction. discriminate.
  - intros E. right.
    split; [intros C; subst; discriminate|].
    unfold call_create_nodes in E.
    destruct (create_nodes ty (length (s0 :: sel)) (_node_provider self1))
      as [cs pr].
    rewrite Hlen in *.
    set (self2 := record (EvCreate ty (length instances) cs) self1
                         (_instance_storage self1) pr) in *.
    exists tr_req, cs.
    destruct (length cs <=? length instances)%nat.
    + destruct (pairing_loop_provider_calls fuel cs (s0 :: sel) self2)
        with (self' := match pairing_loop fuel cs (s0 :: sel) self2 with
                       | Ok _ s | Raise _ s => s
                       | OutOfFuel => self2
                       end)
        as (tr_pair & Hc3 & Ht & Hcr & Hrq).
      { destruct (pairing_loop fuel cs (s0 :: sel) self2);
          try reflexivity. discriminate. }
      destruct (pairing_loop fuel cs (s0 :: sel) self2)
        as [pool' self3|e self3|] eqn:Ep; try discriminate.
      * apply pairing_loop_spec in Ep.
        destruct Ep as (_ & _ & _ & _ & _ & _ & Hz).
        rewrite (Hz ltac:(discriminate)) in E.
        destruct (failed_loop_spec (s0 :: sel) self3)
          as (tr_fail & Hc4 & Hw4 & _).
        destruct (writes_only_quiet Hw4 ltac:(discriminate))
          as (_ & T4 & C4 & R4).
        set (fin := failed_loop (s0 :: sel) self3) in *.
        injection E as <-.
        exists (tr_pair ++ tr_fail). 
        unfold terminated, created, create_requests in *.
        rewrite !flat_map_app, Ht, Hcr, Hrq, T4, C4, R4.
        repeat split; try assumption.
        rewrite Hc4, Hc3. unfold self2. simpl.
        rewrite Hc1, <- !app_assoc. reflexivity.
      * injection E as <-. exists tr_pair.
        repeat split; try assumption.
        rewrite Hc3. unfold self2. simpl.
        rewrite Hc1, <- !app_assoc. reflexivity.
    + injection E as <-. exists [].
      repeat split; try assumption.
      unfold self2. simpl. rewrite Hc1, <- !app_assoc. reflexivity.
Qed.

(** Termination: with a provider that honours its contract, a [pop] that
    always has an instance to give and writes that all succeed, the method
    returns within as many iterations as the chunk has instances. *)
Lemma launch_returns_when_writes_succeed :
  (forall st : St, exists i st', pop st = (Some i, st')) ->
  (forall i x (st : St), fst (fst (upsert_instance i x st)) = true) ->
  (forall ty n (pr : Pr), (length (fst (create_nodes ty n pr)) <= n)%nat) ->
  forall (ty : string) (instances : list Instance) self,
  exists r self',
    _launch_new_instances_by_type (length instances) ty instances self
    = Ok r self'.
Proof.
  intros Hpop Hup Hcontract ty instances self.
  unfold _launch_new_instances_by_type.
  pose proof (request_loop_length instances [] self) as Hlen.
  destruct (request_loop instances [] self) as [selected self1].
  simpl in Hlen.
  destruct selected as [|s0 sel]; [now eexists; eexists|].
  unfold call_create_nodes.
  pose proof (Hcontract ty (length (s0 :: sel)) (_node_provider self1)) as Hle.
  destruct (create_nodes ty (length (s0 :: sel)) (_node_provider self1))
    as [cs pr].
  cbn [fst] in Hle. rewrite (proj2 (Nat.leb_le _ _) Hle).
  match goal with
  | |- context [pairing_loop _ cs (s0 :: sel) ?s] =>
      destruct (pairing_loop_returns_when_writes_succeed
                  Hpop Hup cs (selected := s0 :: sel)
                  (fuel := length instances) s)
        as (self3 & ->); [discriminate | lia |]
  end.
  now eexists; eexists.
Qed.

(** For a chunk that is not empty, the one [create_nodes] request counts
    every instance of the chunk. *)
Lemma launch_requests_whole_chunk (fuel : nat) (ty : string)
      (instances : list Instance) self self' :
  calls self = [] -> instances <> [] ->
  final (_launch_new_instances_by_type fuel ty instances self) = Some self' ->
  create_requests (calls self') = [(ty, length instances)].
Proof.
  intros Hnil Hne Hend. apply launch_ends in Hend.
  destruct Hend as [[C _] | (_ & tr_req & cs & tr_rest & Hc & Hw & _ & _ & Hr)];
    [contradiction|].
  destruct (writes_only_quiet Hw ltac:(discriminate)) as (_ & _ & _ & R1).
  rewrite Hc, Hnil. unfold create_requests in *. simpl.
  rewrite flat_map_app, R1. simpl. now rewrite Hr.
Qed.

(** No run of [_launch_new_instances_by_type] passes an id to
    [terminate_nodes]. *)
Lemma launch_never_terminates (fuel : nat) (ty : string)
      (instances : list Instance) self self' :
  calls self = [] ->
  final (_launch_new_instances_by_type fuel ty instances self) = Some self' ->
  terminated (calls self') = [].
Proof.
  intros Hnil Hend. apply launch_ends in Hend.
  destruct Hend as [[_ Hc] | (_ & tr_req & cs & tr_rest & Hc & Hw & Ht & _)].
  - now rewrite Hc, Hnil.
  - destruct (writes_only_quiet Hw ltac:(discriminate)) as (_ & T1 & _).
    rewrite Hc, Hnil. unfold terminated in *. simpl.
    rewrite flat_map_app, T1. simpl. exact Ht.
Qed.

(** The attribute writes of the pairing loop leave [internal_ip] as the
    popped instance had it. *)
Lemma link_keeps_internal_ip (instance : Instance)
      (cloud_instance : CloudInstance.t) :
  internal_ip (link instance cloud_instance) = internal_ip instance /\
  interal_ip (link instance cloud_instance)
  = Some (CloudInstance.internal_ip cloud_instance).
Proof. now split. Qed.

End LauncherFacts.

(** ** Chunking *)

Lemma firstn_plus {A : Type} (a b : nat) (l : list A) :
  firstn (a + b) l = firstn a l ++ firstn b (skipn a l).
Proof.
  revert l. induction a as [|a IH]; intros l; [reflexivity|].
  destruct l as [|x l]; simpl.
  - now rewrite firstn_nil.
  - now rewrite IH.
Qed.

Lemma in_firstn {A : Type} (n : nat) (l : list A) (x : A) :
  In x (firstn n l) -> In x l.
Proof.
  intros Hx. rewrite <- (firstn_skipn n l). apply in_or_app. now left.
Qed.

Lemma in_skipn {A : Type} (n : nat) (l : list A) (x : A) :
  In x (skipn n l) -> In x l.
Proof.
  intros Hx. rewrite <- (firstn_skipn n l). apply in_or_app. now right.
Qed.

Lemma concat_pieces_prefix {A : Type} (M n : nat) (l : list A) :
  concat (map (fun k => firstn M (skipn (k * M) l)) (seq 0 n))
  = firstn (n * M) l.
Proof.
  induction n as [|n IH]; [reflexivity|].
  rewrite seq_S, map_app, concat_app, IH. simpl.
  rewrite app_nil_r, (Nat.add_comm M), firstn_plus. reflexivity.
Qed.

Lemma pieces_count (m len : Z) :
  0 < m -> 0 <= len ->
  let q := (len + m - 1) / m in
  0 <= q /\ len <= q * m /\ (q - 1) * m < len \/ (len = 0 /\ q = 0).
Proof.
  intros Hm Hl q. subst q.
  pose proof (Z.div_mod (len + m - 1) m ltac:(lia)) as E.
  pose proof (Z.mod_pos_bound (len + m - 1) m Hm) as B.
  assert (0 <= (len + m - 1) / m) by (apply Z.div_pos; lia).
  left. nia.
Qed.

(** The pieces of a list, concatenated, are the list. *)
Lemma concat_pieces {A : Type} (m : Z) (l : list A) :
  0 < m -> concat (pieces m l) = l.
Proof.
  intros Hm. unfold pieces. rewrite concat_pieces_prefix.
  apply firstn_all2.
  destruct (pieces_count Hm (Nat2Z.is_nonneg (length l)))
    as [(Hq & Hle & _) | (Hz & _)]; [|lia].
  apply Nat2Z.inj_le. rewrite Nat2Z.inj_mul, !Z2Nat.id; lia.
Qed.

Lemma pieces_bound {A : Type} (m : Z) (l chunk : list A) :
  0 < m -> In chunk (pieces m l) ->
  Z.of_nat (length chunk) <= m /\ incl chunk l.
Proof.
  intros Hm Hin. unfold pieces in Hin. apply in_map_iff in Hin.
  destruct Hin as (k & <- & _). split.
  - pose proof (firstn_le_length (Z.to_nat m) (skipn (k * Z.to_nat m) l)).
    lia.
  - intros x Hx. apply in_firstn in Hx. now apply in_skipn in Hx.
Qed.

(** With a positive step, the slices taken at the indices of the range are
    the pieces. *)
Lemma range_slices {A : Type} (m : Z) (l : list A) :
  0 < m ->
  exists indices,
    range 0 (Z.of_nat (length l)) m = Some indices /\
    map (fun i => slice l i (Z.min (i + m) (Z.of_nat (length l)))) indices
    = pieces m l.
Proof.
  intros Hm. unfold range.
  destruct (Z.eqb_spec m 0) as [->|_]; [lia|].
  destruct (Z.ltb_spec 0 m) as [_|]; [|lia].
  eexists. split; [reflexivity|].
  rewrite map_map. unfold pieces.
  replace (Z.of_nat (length l) - 0 + m - 1) with (Z.of_nat (length l) + m - 1)
    by lia.
  apply map_ext_in. intros k Hk. apply in_seq in Hk.
  destruct (pieces_count Hm (Nat2Z.is_nonneg (length l)))
    as [(Hq & _ & Hlt) | (Hz & Hq0)]; [|rewrite Hq0 in Hk; simpl in Hk; lia].
  set (len := Z.of_nat (length l)) in *.
  set (q := (len + m - 1) / m) in *.
  assert (Hkq : Z.of_nat k <= q - 1) by lia.
  assert (Hkm : 0 <= Z.of_nat k * m < len) by nia.
  unfold slice, clamp_index. fold len. simpl Z.add.
  destruct (Z.ltb_spec (Z.of_nat k * m) 0) as [|_]; [lia|].
  destruct (Z.ltb_spec (Z.min (Z.of_nat k * m + m) len) 0) as [|_]; [lia|].
  replace (Z.to_nat (Z.min (Z.of_nat k * m) len)) with (k * Z.to_nat m)%nat
    by (rewrite Z.min_l by lia; rewrite Z2Nat.inj_mul, Nat2Z.id; lia).
  rewrite (Z.min_l (Z.of_nat k * m) len) by lia.
  destruct (Z.le_gt_cases (Z.of_nat k * m + m) len) as [Hfit | Hover].
  - f_equal. lia.
  - set (rest := skipn (k * Z.to_nat m) l).
    assert (Hrest : Z.of_nat (length rest) = len - Z.of_nat k * m).
    { unfold rest. rewrite length_skipn. unfold len in *.
      assert (Z.of_nat (k * Z.to_nat m) = Z.of_nat k * m)
        by (rewrite Nat2Z.inj_mul, Z2Nat.id; lia).
      lia. }
    rewrite !firstn_all2; try reflexivity; lia.
Qed.

(** ** Grouping by type *)

Lemma gather_absent (ty : string) (d : list (string * list Instance)) :
  ~ In ty (map fst d) -> gather ty d = [].
Proof.
  induction d as [|[k l] d IH]; intros Hn; [reflexivity|].
  unfold gather in *. simpl in *.
  destruct (String.eqb_spec k ty) as [->|_].
  - elim Hn. now left.
  - apply IH. intros C. apply Hn. now right.
Qed.

Lemma dict_append_keys (d : list (string * list Instance)) (k : string)
      (i : Instance) (k' : string) :
  In k' (map fst (dict_append d k i)) <-> In k' (map fst d) \/ k' = k.
Proof.
  induction d as [|[k0 l] d IH]; simpl.
  - intuition.
  - destruct (String.eqb_spec k0 k) as [->|Hne]; simpl.
    + intuition.
    + rewrite IH. intuition.
Qed.

Lemma dict_append_nodup (d : list (string * list Instance)) (k : string)
      (i : Instance) :
  NoDup (map fst d) -> NoDup (map fst (dict_append d k i)).
Proof.
  induction d as [|[k0 l] d IH]; simpl; intros Hnd.
  - constructor; [intros [] | constructor].
  - inversion Hnd as [|? ? Hnot Hrest]; subst.
    destruct (String.eqb_spec k0 k) as [->|Hne]; simpl.
    + now constructor.
    + constructor; [|now apply IH].
      rewrite dict_append_keys. intros [C | C]; [now apply Hnot | now subst].
Qed.

Lemma gather_dict_append (ty : string) (d : list (string * list Instance))
      (k : string) (i : Instance) :
  NoDup (map fst d) ->
  gather ty (dict_append d k i)
  = gather ty d ++ (if String.eqb k ty then [i] else []).
Proof.
  induction d as [|[k0 l] d IH]; simpl; intros Hnd.
  - unfold gather. simpl. now rewrite app_nil_r.
  - inversion Hnd as [|? ? Hnot Hrest]; subst.
    destruct (String.eqb_spec k0 k) as [->|Hne].
    + unfold gather. simpl. fold (gather ty d).
      destruct (String.eqb_spec k ty) as [->|_].
      * rewrite (gather_absent _ _ Hnot), !app_nil_r. reflexivity.
      * now rewrite app_nil_r.
    + unfold gather. simpl. fold (gather ty d).
      fold (gather ty (dict_append d k i)).
      rewrite IH by assumption. now rewrite app_assoc.
Qed.

Lemma dict_append_typed (d : list (string * list Instance)) (i : Instance) :
  typed d -> typed (dict_append d (instance_type i) i).
Proof.
  unfold typed. induction d as [|[k0 l] d IH]; simpl; intros Ht.
  - repeat constructor.
  - inversion Ht as [|? ? Hl Hd]; subst. simpl in Hl.
    destruct (String.eqb_spec k0 (instance_type i)) as [->|Hne].
    + constructor; [|assumption]. simpl.
      apply Forall_app. split; [assumption | now repeat constructor].
    + constructor; [assumption | now apply IH].
Qed.

(** The grouping loop files every queued instance under its type, once, in
    order. *)
Lemma group_loop_spec (q : list Instance) :
  forall d : list (string * list Instance),
    NoDup (map fst d) -> typed d ->
    NoDup (map fst (group_loop q d)) /\ typed (group_loop q d) /\
    forall ty,
      gather ty (group_loop q d)
      = gather ty d ++ filter (fun i => String.eqb (instance_type i) ty) q.
Proof.
  induction q as [|i q IH]; intros d Hnd Ht; simpl.
  - repeat split; try assumption. intros ty. now rewrite app_nil_r.
  - destruct (IH (dict_append d (instance_type i) i)
                 (dict_append_nodup _ _ _ Hnd) (dict_append_typed _ Ht))
      as (Hnd' & Ht' & Hg).
    repeat split; try assumption.
    intros ty. rewrite Hg, gather_dict_append by assumption.
    rewrite <- app_assoc.
    now destruct (String.eqb (instance_type i) ty).
Qed.

Lemma chunks_of_submits (ty k : string) (cs : list (list Instance)) :
  chunks_of ty (map (EvSubmit k) cs) = if String.eqb k ty then cs else [].
Proof.
  unfold chunks_of. induction cs as [|c cs IH]; simpl.
  - now destruct (String.eqb k ty).
  - rewrite IH. now destruct (String.eqb k ty).
Qed.

Section PassFacts.

Context {St Pr : Type} `{InstanceStorage St} `{NodeProvider Pr}.

Implicit Types self : InstanceLauncher St Pr.

Lemma submit_loop_calls (ty : string) (l : list Instance)
      (indices : list Z) self :
  calls (submit_loop ty l indices self)
  = calls self
    ++ map (fun i => EvSubmit ty
              (slice l i (Z.min (i + _max_nodes_per_request self)
                                (Z.of_nat (length l))))) indices /\
  _max_nodes_per_request (submit_loop ty l indices self)
  = _max_nodes_per_request self.
Proof.
  revert self. induction indices as [|i rest IH]; intros self; simpl.
  - now rewrite app_nil_r.
  - destruct (IH (submit ty
                    (slice l i (Z.min (i + _max_nodes_per_request self)
                                      (Z.of_nat (length l)))) self))
      as [Hc Hm].
    rewrite Hc, Hm. simpl. now rewrite <- app_assoc.
Qed.

(** The QUEUED loop: one write per instance read, carrying status QUEUED
    and the version the instance was read with; the instances kept are
    those whose write succeeded, with the version the storage returned. *)
Lemma queue_loop_spec (new_instances acc : list Instance) self :
  exists results : list (bool * Z),
    length results = length new_instances /\
    calls (snd (queue_loop new_instances acc self))
    = calls self ++ map queued_write (combine new_instances results) /\
    fst (queue_loop new_instances acc self)
    = acc ++ map claimed (filter won (combine new_instances results)) /\
    _max_nodes_per_request (snd (queue_loop new_instances acc self))
    = _max_nodes_per_request self.
Proof.
  revert acc self.
  induction new_instances as [|i rest IH]; intros acc self; simpl.
  - exists []. now rewrite !app_nil_r.
  - destruct (call_upsert_instance (set_status i QUEUED) (version i) self)
      as [[ok v] self1] eqn:E.
    apply call_upsert_instance_calls in E. destruct E as [E Ecfg].
    destruct ok.
    + destruct (IH (acc ++ [set_version (set_status i QUEUED) v]) self1)
        as (results & Hlen & Hc & Hq & Hcfg).
      exists ((true, v) :: results). simpl.
      repeat split.
      * now rewrite Hlen.
      * rewrite Hc, E, <- app_assoc. reflexivity.
      * rewrite Hq, <- app_assoc. reflexivity.
      * now rewrite Hcfg.
    + destruct (IH acc self1) as (results & Hlen & Hc & Hq & Hcfg).
      exists ((false, v) :: results). simpl.
      repeat split.
      * now rewrite Hlen.
      * rewrite Hc, E, <- app_assoc. reflexivity.
      * exact Hq.
      * now rewrite Hcfg.
Qed.

(** With a positive [max_nodes_per_request], the submission loop returns
    and submits, type by type, the pieces of each list. *)
Lemma type_loop_spec (d : list (string * list Instance)) self :
  0 < _max_nodes_per_request self ->
  exists self',
    type_loop d self = Ok tt self' /\
    calls self'
    = calls self
      ++ flat_map (fun kv => map (EvSubmit (fst kv))
                                 (pieces (_max_nodes_per_request self)
                                         (snd kv))) d.
Proof.
  revert self. induction d as [|[ty l] d IH]; intros self Hm; simpl.
  - exists self. now rewrite app_nil_r.
  - destruct (range_slices l Hm) as (indices & Hr & Hs).
    rewrite Hr.
    destruct (submit_loop_calls ty l indices self) as [Hc Hcfg].
    destruct (IH (submit_loop ty l indices self)) as (self' & Hrun & Hc').
    { now rewrite Hcfg. }
    exists self'. split; [assumption|].
    rewrite Hc', Hc, Hcfg, <- app_assoc.
    rewrite <- Hs, map_map. reflexivity.
Qed.


End PassFacts.

(** ** Reading the trace of a pass *)



Lemma chunks_of_queued_writes (ty : string)
      (l : list (Instance * (bool * Z))) :
  chunks_of ty (map queued_write l) = [].
Proof.
  unfold chunks_of. induction l as [|p l IH]; simpl; [reflexivity|].
  exact IH.
Qed.

Lemma chunks_of_app (ty : string) (a b : list Event) :
  chunks_of ty (a ++ b) = chunks_of ty a ++ chunks_of ty b.
Proof. apply flat_map_app. Qed.

Lemma concat_chunks_of_pieces (ty : string) (m : Z)
      (d : list (string * list Instance)) :
  0 < m ->
  concat (chunks_of ty
            (flat_map (fun kv => map (EvSubmit (fst kv)) (pieces m (snd kv)))
                      d))
  = gather ty d.
Proof.
  intros Hm. unfold gather.
  induction d as [|[k l] d IH]; [reflexivity|].
  simpl. unfold chunks_of in *. rewrite flat_map_app, concat_app, IH.
  f_equal. fold (chunks_of ty (map (EvSubmit k) (pieces m l))).
  rewrite chunks_of_submits.
  destruct (String.eqb k ty); [now apply concat_pieces | reflexivity].
Qed.

Unset Implicit Arguments.

(** ** The provider of the scenarios honours its contract *)

Lemma Cloud_create_bound (ty : string) (n : nat) (pr : Cloud.t) :
  (length (fst (create_nodes ty n pr)) <= n)%nat.
Proof. simpl. apply firstn_le_length. Qed.

(** ** No leak (C1) *)

(** C1.  The claim: for every launch chunk, each cloud resource that
    [create_nodes] returned is either linked to an instance written
    ALLOCATED or passed to [terminate_nodes].  The code, on two instances
    and two nodes created, when another actor cancels the first instance
    just before its ALLOCATED write: the node of the failed write goes back
    to the pool and is linked to the second instance; the loop goes on,
    because [instances_selected] is never shortened, pops the other node
    and asks the storage for one more instance; the storage has none left
    to give, the method raises, and that node is neither linked to any
    record nor passed to [terminate_nodes].  And on three instances and
    three nodes, when another actor puts the first instance back to
    REQUESTED after its ALLOCATED write: the method returns, the storage
    has given the first instance twice, the node it held first is held by
    no record, and nothing is terminated. *)
Theorem pairing_leaves_a_created_node_unaccounted :
  ((exists self', cancelled_during_pairing = Raise StorageError self') /\
   map CloudInstance.cloud_instance_id
       (created (calls_of cancelled_during_pairing))
   = ["c1"; "c2"]%string /\
   linked (calls_of cancelled_during_pairing) = ["c2"%string] /\
   allocated_records cancelled_during_pairing
   = [("i2", "c2")]%string /\
   terminated (calls_of cancelled_during_pairing) = [] /\
   provider_terminated cancelled_during_pairing = []) /\
  ((exists self', redriven_during_pairing = Ok None self') /\
   map CloudInstance.cloud_instance_id
       (created (calls_of redriven_during_pairing))
   = ["c1"; "c2"; "c3"]%string /\
   allocated_records redriven_during_pairing
   = [("i1", "c1"); ("i2", "c2")]%string /\
   terminated (calls_of redriven_during_pairing) = [] /\
   provider_terminated redriven_during_pairing = []).
Proof.
  split.
  - split; [vm_compute; eexists; reflexivity|].
    vm_compute. repeat split.
  - split; [vm_compute; eexists; reflexivity|].
    vm_compute. repeat split.
Qed.

(** The run in which the only REQUESTED write fails: the node created for
    the chunk is held by no record and is not terminated either. *)
Example failed_request_leaves_the_created_node_unaccounted :
  (exists self',
      cancelled_before_request_with_stock = Raise StorageError self') /\
  map CloudInstance.cloud_instance_id
      (created (calls_of cancelled_before_request_with_stock))
  = ["c1"%string] /\
  allocated_records cancelled_before_request_with_stock = [] /\
  provider_terminated cancelled_before_request_with_stock = [].
Proof.
  split; [vm_compute; eexists; reflexivity|].
  vm_compute. repeat split.
Qed.

Example partial_fulfilment_outcome :
  cas_writes (calls_of partial_fulfilment)
  = [("g1", REQUESTED, true); ("g2", REQUESTED, true);
     ("g1", ALLOCATED, true);
     ("g1", ALLOCATION_FAILED, false); ("g2", ALLOCATION_FAILED, true)]%string
  /\ option_map status (stored "g1" partial_fulfilment) = Some ALLOCATED
  /\ option_map status (stored "g2" partial_fulfilment)
     = Some ALLOCATION_FAILED.
Proof. vm_compute. repeat split. Qed.

(** ** The REQUESTED write (C2, C3) *)

(** C2.  The claim: an instance whose REQUESTED write fails is left out of
    the rest of the chunk's launch.  The code, on a chunk of one instance
    that another actor has just cancelled: the REQUESTED write fails, and
    the instance is still counted in the [create_nodes] request (one node
    of type "small" is asked for) and is still written ALLOCATION_FAILED by
    the chunk, over the other actor's write. *)
Theorem failed_requested_write_stays_in_chunk :
  cas_writes (calls_of cancelled_before_request)
  = [("i1", REQUESTED, false); ("i1", ALLOCATION_FAILED, true)]%string /\
  create_requests (calls_of cancelled_before_request)
  = [("small"%string, 1%nat)] /\
  option_map status (stored "i1" cancelled_before_request)
  = Some ALLOCATION_FAILED.
Proof. vm_compute. repeat split. Qed.

(** C3.  The claim: when the REQUESTED write fails for every instance of
    the chunk, the node provider is not called.  The code, on a chunk of
    one instance whose REQUESTED write fails: [create_nodes] is called for
    one node, the provider creates it, and nothing is terminated. *)
Theorem all_requested_writes_failed_still_creates :
  cas_writes (calls_of cancelled_before_request_with_stock)
  = [("i1"%string, REQUESTED, false)] /\
  create_requests (calls_of cancelled_before_request_with_stock)
  = [("small"%string, 1%nat)] /\
  created (calls_of cancelled_before_request_with_stock) = [r1] /\
  terminated (calls_of cancelled_before_request_with_stock) = [].
Proof. vm_compute. repeat split. Qed.

(** ** The pairing loop (C4, C5, C6) *)

(** C4.  The claim: a successful pairing writes [cloud_instance_id],
    [internal_ip] and [external_ip] of the cloud resource on the record,
    with status ALLOCATED.  The code, on one instance and the node created
    for it: the record is written ALLOCATED with the node's
    [cloud_instance_id] and [external_ip], but its [internal_ip] is still
    empty; the node's address went to the attribute [interal_ip]. *)
Theorem pairing_leaves_internal_ip_unset :
  CloudInstance.internal_ip r1 = "10.0.0.1"%string /\
  option_map linkage (stored "i1" one_for_one)
  = Some (ALLOCATED, "c1", "", "34.0.0.1", Some "10.0.0.1")%string.
Proof. vm_compute. repeat split. Qed.

(** C5.  The claim, for two instances, two nodes created and a first
    ALLOCATED write that fails: one node is terminated, one instance ends
    ALLOCATED.  The code: the node of the failed write goes back to the
    pool and is linked at the next iteration, the loop runs until the pool
    is empty, both nodes are linked, both records end ALLOCATED, no id is
    passed to [terminate_nodes], and both instances of the chunk are then
    the target of an ALLOCATION_FAILED write. *)
Theorem first_allocated_write_fails_terminates_nothing :
  cas_writes (calls_of first_allocated_write_fails)
  = [("i1", REQUESTED, true); ("i2", REQUESTED, true);
     ("i1", ALLOCATED, false); ("i1", ALLOCATED, true);
     ("i2", ALLOCATED, true);
     ("i1", ALLOCATION_FAILED, false);
     ("i2", ALLOCATION_FAILED, false)]%string /\
  linked (calls_of first_allocated_write_fails) = ["c2"; "c1"]%string /\
  terminated (calls_of first_allocated_write_fails) = [] /\
  option_map status (stored "i1" first_allocated_write_fails)
  = Some ALLOCATED /\
  option_map status (stored "i2" first_allocated_write_fails)
  = Some ALLOCATED.
Proof. vm_compute. repeat split. Qed.

(** C6.  The claim: an instance written ALLOCATED during pairing is not
    the target of a further write of the chunk.  The code, on one instance
    and the node created for it: after the successful ALLOCATED write, the
    chunk issues an ALLOCATION_FAILED write on the same instance. *)
Theorem allocated_instance_is_written_again :
  cas_writes (calls_of one_for_one)
  = [("i1", REQUESTED, true); ("i1", ALLOCATED, true);
     ("i1", ALLOCATION_FAILED, false)]%string.
Proof. vm_compute. reflexivity. Qed.

(** ** Claiming (C7) *)


Example pass_over_four_claims :
  cas_writes (calls_of pass_over_four)
  = [("u1", QUEUED, true); ("u2", QUEUED, true);
     ("u3", QUEUED, false); ("u4", QUEUED, true)]%string /\
  map instance_id
      (claimed_instances
         (launcher (registry_of [u1; u2; u3; u4]
                                [None; None; Some ("u3"%string, TERMINATING)])
                   (Cloud.mk [] []) 2))
  = ["u1"; "u2"; "u4"]%string.
Proof. vm_compute. split; reflexivity. Qed.

(** ** Chunking (C8) *)

(** C8.  With a positive [max_nodes_per_request], a reconciliation pass
    returns, every chunk it submits holds instances of the type it is
    submitted for and at most [max_nodes_per_request] of them, and for
    every type the chunks submitted for it, put end to end, are the claimed
    instances of that type: none twice, none left out. *)
Theorem pass_chunks_partition_the_claimed
        {St Pr : Type} `{InstanceStorage St} `{NodeProvider Pr}
        (st : St) (pr : Pr) (concurrent per_request : Z) :
  0 < per_request ->
  let self := mkLauncher st pr concurrent per_request [] in
  exists self',
    _may_launch_new_instances self = Ok tt self' /\
    (forall ty chunk,
        In (EvSubmit ty chunk) (calls self') ->
        (forall i, In i chunk -> instance_type i = ty) /\
        Z.of_nat (length chunk) <= per_request) /\
    (forall ty,
        concat (chunks_of ty (calls self'))
        = filter (fun i => String.eqb (instance_type i) ty)
                 (claimed_instances self)).
Proof.
  intros Hm self. subst self.
  unfold claimed_instances, _may_launch_new_instances, call_get_instances.
  cbn [_instance_storage _node_provider fst snd].
  set (self0 := mkLauncher st pr concurrent per_request []).
  set (self1 := record (EvGet [UNKNOWN]) self0 st pr).
  destruct (get_instances [UNKNOWN] st) as [|kv snapshot] eqn:Es.
  - exists self1. split; [reflexivity|]. split.
    + intros ty chunk [C | []]. discriminate.
    + reflexivity.
  - set (new_instances := map snd (kv :: snapshot)).
    destruct (queue_loop_spec new_instances [] self1)
      as (results & _ & Hc & _ & Hcfg).
    destruct (queue_loop new_instances [] self1) as [queued self2].
    cbn [fst snd] in *.
    change (_max_nodes_per_request self1) with per_request in Hcfg.
    destruct (group_loop_spec queued (d := [])) as (_ & Ht & Hg);
      [constructor | constructor |].
    destruct (type_loop_spec (group_loop queued []) self2)
      as (self' & Hrun & Hc').
    { now rewrite Hcfg. }
    rewrite Hcfg in Hc'.
    exists self'. split; [exact Hrun|]. split.
    + intros ty chunk Hin. rewrite Hc', Hc in Hin.
      apply in_app_or in Hin. destruct Hin as [Hin | Hin].
      { apply in_app_or in Hin. destruct Hin as [Hin | Hin].
        - destruct Hin as [C | []]. discriminate.
        - apply in_map_iff in Hin. destruct Hin as (? & C & _).
          discriminate. }
      apply in_flat_map in Hin. destruct Hin as ([k l] & Hkl & Hin).
      apply in_map_iff in Hin. destruct Hin as (c & E & Hc0).
      inversion E; subst. cbn [fst snd] in *.
      destruct (pieces_bound _ _ Hm Hc0) as [Hb Hincl].
      split; [|exact Hb].
      intros i Hi. unfold typed in Ht. rewrite Forall_forall in Ht.
      specialize (Ht _ Hkl). cbn [fst snd] in Ht.
      rewrite Forall_forall in Ht.
      apply Ht, Hincl, Hi.
    + intros ty.
      rewrite Hc', Hc, !chunks_of_app, chunks_of_queued_writes.
      change (chunks_of ty (calls self1)) with (@nil (list Instance)).
      cbn [app].
      rewrite (concat_chunks_of_pieces ty _ Hm), Hg. reflexivity.
Qed.

(** A pass to which the theorem applies: two nodes per request. *)
Lemma pass_chunks_partition_the_claimed_witness :
  0 < 2 /\
  exists self',
    pass_over_four = Ok tt self' /\
    (forall ty chunk,
        In (EvSubmit ty chunk) (calls self') ->
        (forall i, In i chunk -> instance_type i = ty) /\
        Z.of_nat (length chunk) <= 2) /\
    (forall ty,
        concat (chunks_of ty (calls self'))
        = filter (fun i => String.eqb (instance_type i) ty)
                 (claimed_instances
                    (launcher
                       (registry_of [u1; u2; u3; u4]
                          [None; None; Some ("u3"%string, TERMINATING)])
                       (Cloud.mk [] []) 2))).
Proof.
  split; [reflexivity|].
  exact (pass_chunks_partition_the_claimed
           (registry_of [u1; u2; u3; u4]
                        [None; None; Some ("u3"%string, TERMINATING)])
           (Cloud.mk [] []) 1 2 eq_refl).
Defined.

Example pass_over_four_chunks :
  map (map instance_id) (chunks_of "small" (calls_of pass_over_four))
  = [["u1"; "u4"]]%string /\
  map (map instance_id) (chunks_of "gpu" (calls_of pass_over_four))
  = [["u2"]]%string.
Proof. vm_compute. split; reflexivity. Qed.

(** Five instances of one type, two per request: chunks of 2, 2 and 1. *)
Example pieces_of_five :
  pieces 2 [1; 2; 3; 4; 5] = [[1; 2]; [3; 4]; [5]] /\
  option_map
    (map (fun i => slice [1; 2; 3; 4; 5] i (Z.min (i + 2) 5)))
    (range 0 5 2)
  = Some [[1; 2]; [3; 4]; [5]].
Proof. vm_compute. split; reflexivity. Qed.

(** A step that is not positive: [range] raises on 0 and is empty below. *)
Example range_without_positive_step :
  range 0 5 0 = None /\ range 0 5 (-1) = Some [].
Proof. vm_compute. split; reflexivity. Qed.

(** ** The assertion (C9) *)

(** C9.  If [create_nodes instance_type n] never returns more than [n]
    cloud resources, then no run of [_launch_new_instances_by_type] ends
    in the [AssertionError] of the check that the number of created cloud
    instances is at most the number of selected instances. *)
Theorem launch_assertion_holds_under_provider_contract
        {St Pr : Type} `{InstanceStorage St} `{NodeProvider Pr} :
  (forall (ty : string) (n : nat) (pr : Pr),
      (length (fst (create_nodes ty n pr)) <= n)%nat) ->
  forall (fuel : nat) (ty : string) (instances : list Instance)
         (self self' : InstanceLauncher St Pr),
    _launch_new_instances_by_type fuel ty instances self
    <> Raise AssertionError self'.
Proof.
  intros Hcontract fuel ty instances self self'.
  unfold _launch_new_instances_by_type.
  destruct (request_loop instances [] self) as [selected self1].
  destruct selected as [|s0 sel]; [discriminate|].
  unfold call_create_nodes.
  pose proof (Hcontract ty (length (s0 :: sel)) (_node_provider self1)) as Hle.
  destruct (create_nodes ty (length (s0 :: sel)) (_node_provider self1))
    as [cs pr].
  cbn [fst] in Hle. apply Nat.leb_le in Hle. rewrite Hle.
  match goal with
  | |- context [pairing_loop fuel cs (s0 :: sel) ?s] =>
      destruct (pairing_loop fuel cs (s0 :: sel) s) as [pool' s3|e s3|] eqn:Ep
  end; try discriminate.
  apply pairing_loop_raises in Ep. subst e. discriminate.
Qed.

(** The check is live: a provider that returns one node too many makes
    the method raise. *)
Example over_creation_trips_the_assertion :
  exists self', over_creation = Raise AssertionError self'.
Proof. vm_compute. eexists. reflexivity. Qed.

(** A provider and a run to which the theorem applies. *)
Lemma launch_assertion_holds_under_provider_contract_witness :
  (forall (ty : string) (n : nat) (pr : Cloud.t),
      (length (fst (create_nodes ty n pr)) <= n)%nat) /\
  forall self', partial_fulfilment <> Raise AssertionError self'.
Proof.
  split; [exact Cloud_create_bound|].
  intros self'.
  exact (launch_assertion_holds_under_provider_contract
           Cloud_create_bound 4 "gpu" [g1; g2]
           (launcher (registry_of [g1; g2] []) (Cloud.mk [r1] []) 5) self').
Defined.

(** ** Nothing to launch (C10) *)

(** C10.  If no instance has status UNKNOWN when the pass reads the
    storage, [_may_launch_new_instances] returns at once: the storage and
    the provider are as they were, and the only call recorded is the read
    itself, so there is no upsert, no provider call and no submission. *)
Theorem pass_on_empty_snapshot_does_nothing
        {St Pr : Type} `{InstanceStorage St} `{NodeProvider Pr}
        (self : InstanceLauncher St Pr) :
  get_instances [UNKNOWN] (_instance_storage self) = [] ->
  _may_launch_new_instances self
  = Ok tt (mkLauncher (_instance_storage self) (_node_provider self)
                      (_max_concurrent_requests self)
                      (_max_nodes_per_request self)
                      (calls self ++ [EvGet [UNKNOWN]])).
Proof.
  intros Hempty.
  unfold _may_launch_new_instances, call_get_instances.
  now rewrite Hempty.
Qed.

(** A pass to which the theorem applies: no record is UNKNOWN. *)
Lemma pass_on_empty_snapshot_does_nothing_witness :
  get_instances [UNKNOWN] (registry_of [g1; g2] []) = [] /\
  _may_launch_new_instances
    (launcher (registry_of [g1; g2] []) (Cloud.mk [r1] []) 5)
  = Ok tt (mkLauncher (registry_of [g1; g2] []) (Cloud.mk [r1] []) 1 5
                      [EvGet [UNKNOWN]]).
Proof.
  split; [reflexivity|].
  exact (pass_on_empty_snapshot_does_nothing
           (launcher (registry_of [g1; g2] []) (Cloud.mk [r1] []) 5)
           eq_refl).
Defined.

(** * Further properties *)

(** ** The exact traces of the loops *)

Section LaunchTraces.

Context {St Pr : Type} `{InstanceStorage St} `{NodeProvider Pr}.

Implicit Types self : InstanceLauncher St Pr.

Lemma call_upsert_instance_provider (i : Instance) (x : Z) self :
  _node_provider (snd (call_upsert_instance i x self)) = _node_provider self.
Proof.
  unfold call_upsert_instance.
  now destruct (upsert_instance i x (_instance_storage self)) as [[ok v] st].
Qed.

(** The REQUESTED loop, call by call. *)
Lemma request_loop_exact (instances acc : list Instance) self :
  exists results : list (bool * Z),
    length results = length instances /\
    calls (snd (request_loop instances acc self))
    = calls self ++ map requested_write (combine instances results) /\
    fst (request_loop instances acc self)
    = acc ++ map requested (combine instances results) /\
    _node_provider (snd (request_loop instances acc self))
    = _node_provider self.
Proof.
  revert acc self.
  induction instances as [|i rest IH]; intros acc self; simpl.
  - exists []. now rewrite !app_nil_r.
  - pose proof (call_upsert_instance_provider (set_status i REQUESTED)
                                              (version i) self) as Hp.
    destruct (call_upsert_instance (set_status i REQUESTED) (version i) self)
      as [[ok v] self1] eqn:E.
    apply call_upsert_instance_calls in E. destruct E as [E _].
    simpl in Hp.
    destruct (IH (acc ++ [set_version (set_status i REQUESTED) v]) self1)
      as (results & Hlen & Hc & Hsel & Hpr).
    exists ((ok, v) :: results). simpl. repeat split.
    + now rewrite Hlen.
    + rewrite Hc, E, <- app_assoc. reflexivity.
    + rewrite Hsel, <- app_assoc. reflexivity.
    + now rewrite Hpr.
Qed.

(** The ALLOCATION_FAILED loop, call by call. *)
Lemma failed_loop_exact (selected : list Instance) self :
  exists results : list (bool * Z),
    length results = length selected /\
    calls (failed_loop selected self)
    = calls self ++ map failed_write (combine selected results).
Proof.
  revert self. induction selected as [|i rest IH]; intros self; simpl.
  - exists []. now rewrite app_nil_r.
  - destruct (call_upsert_instance (set_status i ALLOCATION_FAILED)
                                   (version i) self)
      as [[ok v] self1] eqn:E.
    apply call_upsert_instance_calls in E. destruct E as [E _].
    destruct (IH self1) as (results & Hlen & Hc).
    exists ((ok, v) :: results). simpl. split.
    + now rewrite Hlen.
    + rewrite Hc, E, <- app_assoc. reflexivity.
Qed.

(** The pairing loop, call by call, however it ends. *)
Lemma pairing_loop_trace (fuel : nat) :
  forall (pool : list CloudInstance.t) (selected : list Instance) self,
    match pairing_loop fuel pool selected self with
    | Ok pool' self' =>
        exists tr, calls self' = calls self ++ tr /\
                   pairing_trace pool tr (Some pool')
    | Raise _ self' =>
        exists tr, calls self' = calls self ++ tr /\
                   pairing_trace pool tr None
    | OutOfFuel => True
    end.
Proof.
  induction fuel as [|fuel IH]; intros pool selected self; simpl;
    destruct (list_pop pool) as [[c rem]|] eqn:Ep;
    try (destruct selected as [|s0 sel]);
    try exact I;
    try (exists []; rewrite app_nil_r; split; [reflexivity | constructor]).
  apply list_pop_some in Ep. subst pool.
  unfold call_pop.
  destruct (pop (_instance_storage self)) as [[inst|] st]; simpl.
  - match goal with
    | |- context [call_upsert_instance ?i ?x ?s] =>
        destruct (call_upsert_instance i x s) as [[ok v] self2] eqn:E
    end.
    apply call_upsert_instance_calls in E. destruct E as [E _].
    simpl in E.
    destruct ok.
    + specialize (IH rem (s0 :: sel) self2).
      destruct (pairing_loop fuel rem (s0 :: sel) self2)
        as [pool' self'|e self'|]; try exact I;
        destruct IH as (tr & Hc & Ht);
        (eexists; split;
         [rewrite Hc, E, <- !app_assoc; reflexivity
         | apply pairing_linked; exact Ht]).
    + specialize (IH (rem ++ [c]) (s0 :: sel) self2).
      destruct (pairing_loop fuel (rem ++ [c]) (s0 :: sel) self2)
        as [pool' self'|e self'|]; try exact I;
        destruct IH as (tr & Hc & Ht);
        (eexists; split;
         [rewrite Hc, E, <- !app_assoc; reflexivity
         | apply pairing_retry; exact Ht]).
  - exists [EvPop None]. split; [reflexivity | constructor].
Qed.

(** The calls of a run of [_launch_new_instances_by_type] that ends, on a
    chunk that is not empty: the REQUESTED writes, the one [create_nodes]
    call, the pairing loop and, when the method returns, the
    ALLOCATION_FAILED writes. *)
Lemma launch_trace (fuel : nat) (ty : string) (instances : list Instance)
      self self' :
  instances <> [] ->
  final (_launch_new_instances_by_type fuel ty instances self) = Some self' ->
  exists results cs tr_pair out tr_fail,
    length results = length instances /\
    cs = fst (create_nodes ty (length instances) (_node_provider self)) /\
    calls self'
    = calls self ++ map requested_write (combine instances results)
                 ++ [EvCreate ty (length instances) cs]
                 ++ tr_pair ++ tr_fail /\
    ((length instances < length cs)%nat /\ tr_pair = [] /\ tr_fail = [] /\
     _launch_new_instances_by_type fuel ty instances self
     = Raise AssertionError self'
     \/
     (length cs <= length instances)%nat /\ pairing_trace cs tr_pair out /\
     match out with
     | Some pool' =>
         pool' = [] /\
         _launch_new_instances_by_type fuel ty instances self
         = Ok None self' /\
         exists results' : list (bool * Z),
           length results' = length instances /\
           tr_fail
           = map failed_write
                 (combine (map requested (combine instances results))
                          results')
     | None =>
         tr_fail = [] /\
         _launch_new_instances_by_type fuel ty instances self
         = Raise StorageError self'
     end).
Proof.
  intros Hne.
  unfold _launch_new_instances_by_type.
  destruct (request_loop_exact instances [] self)
    as (results & Hlen & Hc1 & Hsel & Hpr).
  destruct (request_loop instances [] self) as [selected self1].
  cbn [fst snd] in *. rewrite app_nil_l in Hsel.
  assert (Hlsel : length selected = length instances).
  { rewrite Hsel, length_map, length_combine. lia. }
  destruct selected as [|s0 sel].
  { destruct instances; [now elim Hne | discriminate]. }
  unfold call_create_nodes. rewrite Hpr, Hlsel.
  destruct (create_nodes ty (length instances) (_node_provider self))
    as [cs pr] eqn:Ecs.
  set (self2 := record (EvCreate ty (length instances) cs) self1
                       (_instance_storage self1) pr).
  assert (Hc2 : calls self2
                = calls self ++ map requested_write (combine instances results)
                             ++ [EvCreate ty (length instances) cs]).
  { unfold self2. simpl. rewrite Hc1, <- app_assoc. reflexivity. }
  destruct (Nat.leb_spec (length cs) (length instances)) as [Hle | Hgt].
  - pose proof (pairing_loop_trace fuel cs (s0 :: sel) self2) as Hp.
    pose proof (pairing_loop_spec fuel cs (s0 :: sel) self2) as Hz.
    destruct (pairing_loop fuel cs (s0 :: sel) self2)
      as [pool' self3|e self3|] eqn:Ep; [| |discriminate].
    + destruct Hp as (tr_pair & Hc3 & Ht).
      destruct (Hz pool' self3 eq_refl) as (_ & _ & _ & _ & _ & _ & Hnil).
      specialize (Hnil ltac:(discriminate)). subst pool'.
      destruct (failed_loop_exact (s0 :: sel) self3)
        as (results' & Hlen' & Hc4).
      set (fin := failed_loop (s0 :: sel) self3) in *.
      intros E. injection E as <-.
      exists results, cs, tr_pair, (Some []).
      eexists. split; [exact Hlen|]. split; [reflexivity|].
      split.
      { rewrite Hc4, Hc3, Hc2, <- !app_assoc. reflexivity. }
      right. split; [exact Hle|]. split; [exact Ht|].
      split; [reflexivity|]. split; [reflexivity|].
      exists results'. split; [lia|]. now rewrite Hsel.
    + destruct Hp as (tr_pair & Hc3 & Ht).
      pose proof (pairing_loop_raises _ _ _ _ Ep) as ->.
      intros E. injection E as <-.
      exists results, cs, tr_pair, None, [].
      split; [exact Hlen|]. split; [reflexivity|].
      split.
      { rewrite Hc3, Hc2, <- !app_assoc, app_nil_r. reflexivity. }
      right. split; [exact Hle|]. split; [exact Ht|]. now split.
  - intros E. injection E as <-.
    exists results, cs, [], None, [].
    split; [exact Hlen|]. split; [reflexivity|].
    split; [rewrite Hc2, app_nil_r; reflexivity|].
    left. now repeat split.
Qed.

End LaunchTraces.

(** ** Facts about pairing traces *)

Lemma attempts_app (a b : list Event) :
  attempts (a ++ b) = attempts a ++ attempts b.
Proof. apply flat_map_app. Qed.

Lemma linked_app (a b : list Event) : linked (a ++ b) = linked a ++ linked b.
Proof. apply flat_map_app. Qed.

Lemma created_app (a b : list Event) :
  created (a ++ b) = created a ++ created b.
Proof. apply flat_map_app. Qed.

Lemma attempts_requested_writes (l : list (Instance * (bool * Z))) :
  attempts (map requested_write l) = [].
Proof.
  unfold attempts. induction l as [|p l IH]; simpl; [reflexivity|].
  exact IH.
Qed.

Lemma attempts_failed_writes (l : list (Instance * (bool * Z))) :
  attempts (map failed_write l) = [].
Proof.
  unfold attempts. induction l as [|p l IH]; simpl; [reflexivity|].
  exact IH.
Qed.

Lemma linked_requested_writes (l : list (Instance * (bool * Z))) :
  linked (map requested_write l) = [].
Proof.
  unfold linked. induction l as [|[i [ok v]] l IH]; simpl; [reflexivity|].
  now destruct ok.
Qed.

Lemma linked_failed_writes (l : list (Instance * (bool * Z))) :
  linked (map failed_write l) = [].
Proof.
  unfold linked. induction l as [|[i [ok v]] l IH]; simpl; [reflexivity|].
  now destruct ok.
Qed.

Lemma created_requested_writes (l : list (Instance * (bool * Z))) :
  created (map requested_write l) = [].
Proof.
  unfold created. induction l as [|p l IH]; simpl; [reflexivity|].
  exact IH.
Qed.

Lemma created_failed_writes (l : list (Instance * (bool * Z))) :
  created (map failed_write l) = [].
Proof.
  unfold created. induction l as [|p l IH]; simpl; [reflexivity|].
  exact IH.
Qed.

(** A pairing trace creates nothing, and every write in it is the linking
    of a popped instance with a cloud instance of the pool. *)
Lemma pairing_trace_writes (pool : list CloudInstance.t) (tr : list Event)
      (out : option (list CloudInstance.t)) :
  pairing_trace pool tr out ->
  created tr = [] /\
  forall i x ok v,
    In (EvUpsert i x ok v) tr ->
    exists c popped,
      In c pool /\ In (EvPop (Some popped)) tr /\
      i = link popped c /\ x = version popped.
Proof.
  induction 1 as [pool|pool|rem c popped v tr out _ [IHc IH]
                  |rem c popped v tr out _ [IHc IH]].
  - split; [reflexivity | intros ? ? ? ? []].
  - split; [reflexivity|]. intros ? ? ? ? [C | []]. discriminate.
  - split; [exact IHc|]. intros i x ok w [C | [E | Hin]]; [discriminate| |].
    + injection E as <- <- <- <-. exists c, popped.
      repeat split; [apply in_or_app; right; now left | now left].
    + destruct (IH _ _ _ _ Hin) as (c0 & p0 & Hc0 & Hp0 & Hl & Hx).
      exists c0, p0.
      repeat split; try assumption;
        [apply in_or_app; now left | right; now right].
  - split; [exact IHc|]. intros i x ok w [C | [E | Hin]]; [discriminate| |].
    + injection E as <- <- <- <-. exists c, popped.
      repeat split; [apply in_or_app; right; now left | now left].
    + destruct (IH _ _ _ _ Hin) as (c0 & p0 & Hc0 & Hp0 & Hl & Hx).
      exists c0, p0.
      repeat split; try assumption. right; now right.
Qed.

(** In a pairing trace that leaves an empty pool and in which no write
    failed, the cloud instances are linked from the last to the first. *)
Lemma pairing_trace_order (pool : list CloudInstance.t) (tr : list Event)
      (out : option (list CloudInstance.t)) :
  pairing_trace pool tr out ->
  out = Some [] ->
  forallb snd (attempts tr) = true ->
  linked tr = rev (map CloudInstance.cloud_instance_id pool).
Proof.
  induction 1 as [pool|pool|rem c popped v tr out _ IH
                  |rem c popped v tr out _ IH]; intros Hout Hall.
  - injection Hout as ->. reflexivity.
  - discriminate.
  - unfold linked, attempts in *. simpl in *.
    rewrite map_app, rev_app_distr. simpl. f_equal. now apply IH.
  - unfold attempts in Hall. simpl in Hall. discriminate.
Qed.

(** The first ALLOCATED write of a pairing trace carries the last cloud
    instance of the pool. *)
Lemma pairing_trace_first (pool : list CloudInstance.t) (tr : list Event)
      (out : option (list CloudInstance.t)) :
  pairing_trace pool tr out ->
  forall b okb l,
    attempts tr = (b, okb) :: l ->
    exists rem c,
      pool = rem ++ [c] /\ b = CloudInstance.cloud_instance_id c.
Proof.
  destruct 1 as [pool|pool|rem c popped v tr out _|rem c popped v tr out _];
    intros b okb l E; try discriminate;
    unfold attempts in E; simpl in E; injection E as <- _ _;
    now exists rem, c.
Qed.

(** After a failed ALLOCATED write, the next one carries the same cloud
    instance. *)
Lemma pairing_trace_retries (pool : list CloudInstance.t) (tr : list Event)
      (out : option (list CloudInstance.t)) :
  pairing_trace pool tr out ->
  forall l1 a b okb l2,
    attempts tr = l1 ++ (a, false) :: (b, okb) :: l2 -> a = b.
Proof.
  induction 1 as [pool|pool|rem c popped v tr out Ht IH
                  |rem c popped v tr out Ht IH];
    intros l1 a b okb l2 E.
  - now destruct l1.
  - now destruct l1.
  - unfold attempts in E. simpl in E. fold (attempts tr) in E.
    destruct l1 as [|x l1]; simpl in E; [discriminate|].
    injection E as _ E. now apply (IH _ _ _ _ _ E).
  - unfold attempts in E. simpl in E. fold (attempts tr) in E.
    destruct l1 as [|x l1]; simpl in E.
    + injection E as <- E.
      destruct (pairing_trace_first _ _ _ Ht _ _ _ E)
        as (rem' & c' & Hp & ->).
      apply app_inj_tail in Hp. destruct Hp as [_ <-]. reflexivity.
    + injection E as _ E. now apply (IH _ _ _ _ _ E).
Qed.

(** ** [_launch_new_instances_by_type]: what a run does *)

Section LaunchExtras.

Context {St Pr : Type} `{InstanceStorage St} `{NodeProvider Pr}.

Implicit Types self : InstanceLauncher St Pr.

(** The calls of a run that ends, on a chunk that is not empty, in four
    parts. *)
Lemma launch_trace_parts (fuel : nat) (ty : string)
      (instances : list Instance) self self' :
  instances <> [] ->
  final (_launch_new_instances_by_type fuel ty instances self) = Some self' ->
  exists lr cs tr_pair out lf,
    calls self'
    = calls self ++ map requested_write lr
                 ++ [EvCreate ty (length instances) cs]
                 ++ tr_pair ++ map failed_write lf /\
    pairing_trace cs tr_pair out.
Proof.
  intros Hne Hend.
  destruct (launch_trace fuel ty instances self self' Hne Hend)
    as (results & cs & tr_pair & out & tr_fail & _ & _ & Hc & Hcase).
  destruct Hcase as [(_ & -> & -> & _) | (_ & Ht & Hout)].
  - exists (combine instances results), cs, [], (Some cs), [].
    split; [exact Hc | constructor].
  - destruct out as [pool'|].
    + destruct Hout as (_ & _ & results' & _ & ->).
      eexists _, cs, tr_pair, (Some pool'), _. split; [exact Hc | exact Ht].
    + destruct Hout as (-> & _).
      exists (combine instances results), cs, tr_pair, None, [].
      split; [exact Hc | exact Ht].
Qed.

End LaunchExtras.

(** X1.  A run of [_launch_new_instances_by_type] that returns gives 0
    exactly when the chunk is empty, and then it has made no call and
    changed nothing; on any other chunk it returns no value. *)
Theorem launch_returns_zero_exactly_on_empty_chunk
        {St Pr : Type} `{InstanceStorage St} `{NodeProvider Pr}
        (fuel : nat) (ty : string) (instances : list Instance)
        (self : InstanceLauncher St Pr) (r : option Z)
        (self' : InstanceLauncher St Pr) :
  _launch_new_instances_by_type fuel ty instances self = Ok r self' ->
  (instances = [] -> r = Some 0 /\ self' = self) /\
  (instances <> [] -> r = None).
Proof.
  intros Hrun. split.
  - intros ->. simpl in Hrun. injection Hrun as <- <-. now split.
  - intros Hne. apply launch_returns in Hrun.
    destruct Hrun as [(C & _) | (_ & Hr & _)]; [contradiction | exact Hr].
Qed.

Lemma launch_returns_zero_exactly_on_empty_chunk_witness :
  exists r self',
    partial_fulfilment = Ok r self' /\
    ([g1; g2] = [] ->
     r = Some 0 /\
     self' = launcher (registry_of [g1; g2] []) (Cloud.mk [r1] []) 5) /\
    ([g1; g2] <> [] -> r = None).
Proof.
  destruct partial_fulfilment as [r self'| |] eqn:E.
  - exists r, self'. split; [reflexivity|].
    exact (launch_returns_zero_exactly_on_empty_chunk
             4 "gpu" [g1; g2]
             (launcher (registry_of [g1; g2] []) (Cloud.mk [r1] []) 5)
             r self' E).
  - vm_compute in E. discriminate.
  - vm_compute in E. discriminate.
Defined.

(** X2.  On a chunk that is not empty, a run of
    [_launch_new_instances_by_type] that ends, by returning or by raising,
    has called [create_nodes] exactly once, for the chunk's type and for as
    many nodes as the chunk has instances, whatever the outcome of the
    REQUESTED writes. *)
Theorem launch_asks_once_for_the_whole_chunk
        {St Pr : Type} `{InstanceStorage St} `{NodeProvider Pr}
        (st : St) (pr : Pr) (concurrent per_request : Z)
        (fuel : nat) (ty : string) (instances : list Instance)
        (self' : InstanceLauncher St Pr) :
  instances <> [] ->
  final (_launch_new_instances_by_type
           fuel ty instances (mkLauncher st pr concurrent per_request []))
  = Some self' ->
  create_requests (calls self') = [(ty, length instances)].
Proof.
  intros Hne Hend.
  exact (launch_requests_whole_chunk
           fuel ty (mkLauncher st pr concurrent per_request []) eq_refl
           Hne Hend).
Qed.

Lemma launch_asks_once_for_the_whole_chunk_witness :
  [i1] <> [] /\
  exists self',
    final cancelled_before_request_with_stock = Some self' /\
    create_requests (calls self') = [("small"%string, length [i1])].
Proof.
  split; [discriminate|].
  destruct (final cancelled_before_request_with_stock) as [self'|] eqn:E.
  - exists self'. split; [reflexivity|].
    exact (launch_asks_once_for_the_whole_chunk
             (registry_of [i1] [Some ("i1"%string, TERMINATING)])
             (Cloud.mk [r1] []) 1 5 4 "small" [i1] self'
             ltac:(discriminate) E).
  - vm_compute in E. discriminate.
Defined.

(** X3.  No run of [_launch_new_instances_by_type] passes an id to
    [terminate_nodes]: the loop that links cloud instances is only left
    with an empty pool. *)
Theorem launch_passes_nothing_to_terminate_nodes
        {St Pr : Type} `{InstanceStorage St} `{NodeProvider Pr}
        (st : St) (pr : Pr) (concurrent per_request : Z)
        (fuel : nat) (ty : string) (instances : list Instance) :
  terminated
    (calls_of (_launch_new_instances_by_type
                 fuel ty instances
                 (mkLauncher st pr concurrent per_request [])))
  = [].
Proof.
  unfold calls_of.
  destruct (final (_launch_new_instances_by_type
                     fuel ty instances
                     (mkLauncher st pr concurrent per_request [])))
    as [self'|] eqn:E; [|reflexivity].
  exact (launch_never_terminates
           fuel ty instances (mkLauncher st pr concurrent per_request [])
           eq_refl E).
Qed.

(** X4.  In a run of [_launch_new_instances_by_type] that returns, the
    cloud-instance ids written by the successful ALLOCATED writes are, up
    to their order, the ids of the cloud instances that [create_nodes]
    returned: each one is linked once. *)
Theorem launch_links_each_created_node_once
        {St Pr : Type} `{InstanceStorage St} `{NodeProvider Pr}
        (st : St) (pr : Pr) (concurrent per_request : Z)
        (fuel : nat) (ty : string) (instances : list Instance)
        (r : option Z) (self' : InstanceLauncher St Pr) :
  _launch_new_instances_by_type
    fuel ty instances (mkLauncher st pr concurrent per_request [])
  = Ok r self' ->
  Permutation (linked (calls self'))
              (map CloudInstance.cloud_instance_id (created (calls self'))).
Proof.
  intros Hrun. apply launch_returns in Hrun.
  destruct Hrun as [(_ & _ & Hc) | (_ & _ & tr_req & cs & tr_pair & tr_fail
                                    & Hc & Hw1 & _ & _ & Hperm & _ & Hcr & _
                                    & Hw4 & _)].
  - rewrite Hc. constructor.
  - rewrite Hc. simpl.
    destruct (writes_only_quiet Hw1 ltac:(discriminate)) as (L1 & _ & C1 & _).
    destruct (writes_only_quiet Hw4 ltac:(discriminate)) as (L4 & _ & C4 & _).
    unfold linked, created in *.
    rewrite !flat_map_app. simpl. rewrite !flat_map_app.
    rewrite L1, C1, L4, C4, Hcr. simpl. rewrite !app_nil_r.
    exact Hperm.
Qed.

Lemma launch_links_each_created_node_once_witness :
  exists r self',
    first_allocated_write_fails = Ok r self' /\
    Permutation (linked (calls self'))
                (map CloudInstance.cloud_instance_id (created (calls self'))).
Proof.
  eexists. eexists. split.
  - vm_compute. reflexivity.
  - eapply (launch_links_each_created_node_once
             (registry_of [i1; i2]
                          [None; None; Some ("i1"%string, REQUESTED)])
             (Cloud.mk [r1; r2] []) 1 5 8 "small" [i1; i2]).
    vm_compute. reflexivity.
Defined.

(** X5.  Every ALLOCATED write of a run of
    [_launch_new_instances_by_type] that ends is the linking (lines
    119-123) of an instance that the storage's [pop] returned with a cloud
    instance that [create_nodes] returned, and expects the version the
    instance had when popped: the launcher never writes ALLOCATED with a
    cloud-instance id it was not given. *)
Theorem allocated_write_links_popped_instance_and_created_node
        {St Pr : Type} `{InstanceStorage St} `{NodeProvider Pr}
        (st : St) (pr : Pr) (concurrent per_request : Z)
        (fuel : nat) (ty : string) (instances : list Instance)
        (self' : InstanceLauncher St Pr)
        (i : Instance) (x : Z) (ok : bool) (v : Z) :
  final (_launch_new_instances_by_type
           fuel ty instances (mkLauncher st pr concurrent per_request []))
  = Some self' ->
  In (EvUpsert i x ok v) (calls self') ->
  status i = ALLOCATED ->
  exists cloud_instance popped,
    In cloud_instance (created (calls self')) /\
    In (EvPop (Some popped)) (calls self') /\
    i = link popped cloud_instance /\ x = version popped.
Proof.
  intros Hend Hin Hst.
  destruct instances as [|i0 rest].
  { simpl in Hend. injection Hend as <-. destruct Hin. }
  destruct (launch_trace_parts fuel ty (i0 :: rest) _ self'
                               ltac:(discriminate) Hend)
    as (lr & cs & tr_pair & out & lf & Hc & Ht).
  simpl calls in Hc. rewrite app_nil_l in Hc.
  destruct (pairing_trace_writes _ _ _ Ht) as [Hcr Hw].
  assert (Hcreated : created (calls self') = cs).
  { rewrite Hc, !created_app, created_requested_writes,
      created_failed_writes, Hcr.
    unfold created. simpl. now rewrite !app_nil_r. }
  rewrite Hc in Hin.
  apply in_app_or in Hin. destruct Hin as [Hin | Hin].
  { apply in_map_iff in Hin. destruct Hin as (p & E & _).
    injection E as <- _ _ _. simpl in Hst. discriminate. }
  apply in_app_or in Hin. destruct Hin as [[C | []] | Hin];
    [discriminate|].
  apply in_app_or in Hin. destruct Hin as [Hin | Hin].
  - destruct (Hw _ _ _ _ Hin) as (c & popped & Hcin & Hpop & Hl & Hx).
    exists c, popped. rewrite Hcreated.
    repeat split; try assumption.
    rewrite Hc. apply in_or_app. right. apply in_or_app. right.
    apply in_or_app. now left.
  - apply in_map_iff in Hin. destruct Hin as (p & E & _).
    injection E as <- _ _ _. simpl in Hst. discriminate.
Qed.

Lemma allocated_write_links_popped_instance_and_created_node_witness :
  exists self',
    final one_for_one = Some self' /\
    In (EvUpsert (link (set_version (set_status i1 REQUESTED) 2) r1)
                 2 true 3) (calls self') /\
    status (link (set_version (set_status i1 REQUESTED) 2) r1)
    = ALLOCATED /\
    exists cloud_instance popped,
      In cloud_instance (created (calls self')) /\
      In (EvPop (Some popped)) (calls self') /\
      link (set_version (set_status i1 REQUESTED) 2) r1
      = link popped cloud_instance /\
      2 = version popped.
Proof.
  eexists. split; [vm_compute; reflexivity|].
  assert (Hin : In (EvUpsert (link (set_version (set_status i1 REQUESTED) 2)
                                   r1) 2 true 3)
                   (calls_of one_for_one)).
  { vm_compute. do 3 right. left. reflexivity. }
  split; [exact Hin|]. split; [reflexivity|].
  eapply (allocated_write_links_popped_instance_and_created_node
            (registry_of [i1] []) (Cloud.mk [r1] []) 1 5 4 "small" [i1]).
  - vm_compute. reflexivity.
  - exact Hin.
  - reflexivity.
Defined.

(** X6.  A run of [_launch_new_instances_by_type] that returns starts with
    one REQUESTED write per instance of the chunk, in order, each expecting
    the version the instance came with; it ends with one ALLOCATION_FAILED
    write per instance of the chunk, in order, each expecting the version
    that the storage returned to that instance's REQUESTED write, whether
    that write succeeded or not; every write in between is an ALLOCATED
    write. *)
Theorem launch_failed_writes_expect_the_requested_versions
        {St Pr : Type} `{InstanceStorage St} `{NodeProvider Pr}
        (st : St) (pr : Pr) (concurrent per_request : Z)
        (fuel : nat) (ty : string) (instances : list Instance)
        (r : option Z) (self' : InstanceLauncher St Pr) :
  _launch_new_instances_by_type
    fuel ty instances (mkLauncher st pr concurrent per_request [])
  = Ok r self' ->
  exists (results results' : list (bool * Z)) (middle : list Event),
    length results = length instances /\
    length results' = length instances /\
    calls self'
    = map requested_write (combine instances results)
      ++ middle
      ++ map failed_write
             (combine (map requested (combine instances results)) results')
    /\
    forall i x ok v, In (EvUpsert i x ok v) middle -> status i = ALLOCATED.
Proof.
  intros Hrun.
  destruct instances as [|i0 rest].
  { simpl in Hrun. injection Hrun as <- <-.
    exists [], [], []. repeat split. intros ? ? ? ? []. }
  assert (Hend : final (_launch_new_instances_by_type
                          fuel ty (i0 :: rest)
                          (mkLauncher st pr concurrent per_request []))
                 = Some self') by now rewrite Hrun.
  destruct (launch_trace fuel ty (i0 :: rest) _ self'
                         ltac:(discriminate) Hend)
    as (results & cs & tr_pair & out & tr_fail & Hlen & _ & Hc & Hcase).
  destruct Hcase as [(_ & _ & _ & C) | (_ & Ht & Hout)].
  { rewrite Hrun in C. discriminate. }
  destruct out as [pool'|]; [|destruct Hout as (_ & C);
                              rewrite Hrun in C; discriminate].
  destruct Hout as (_ & _ & results' & Hlen' & ->).
  exists results, results', ([EvCreate ty (length (i0 :: rest)) cs] ++ tr_pair).
  split; [exact Hlen|]. split; [exact Hlen'|]. split.
  - rewrite Hc. simpl calls. rewrite app_nil_l, <- !app_assoc. reflexivity.
  - intros i x ok v [C | Hin]; [discriminate|].
    destruct (pairing_trace_writes _ _ _ Ht) as [_ Hw].
    destruct (Hw _ _ _ _ Hin) as (c & popped & _ & _ & -> & _).
    reflexivity.
Qed.

Lemma launch_failed_writes_expect_the_requested_versions_witness :
  exists r self',
    cancelled_before_request = Ok r self' /\
    exists (results results' : list (bool * Z)) (middle : list Event),
      length results = length [i1] /\
      length results' = length [i1] /\
      calls self'
      = map requested_write (combine [i1] results)
        ++ middle
        ++ map failed_write
               (combine (map requested (combine [i1] results)) results')
      /\
      forall i x ok v, In (EvUpsert i x ok v) middle -> status i = ALLOCATED.
Proof.
  eexists. eexists. split; [vm_compute; reflexivity|].
  eapply (launch_failed_writes_expect_the_requested_versions
            (registry_of [i1] [Some ("i1"%string, TERMINATING)])
            (Cloud.mk [] []) 1 5 4 "small" [i1]).
  vm_compute. reflexivity.
Defined.

(** X7.  When no ALLOCATED write fails, a run of
    [_launch_new_instances_by_type] that returns links the cloud instances
    in the reverse of the order in which [create_nodes] returned them: the
    first instance popped from the storage gets the last cloud instance. *)
Theorem launch_links_from_the_last_created_node
        {St Pr : Type} `{InstanceStorage St} `{NodeProvider Pr}
        (st : St) (pr : Pr) (concurrent per_request : Z)
        (fuel : nat) (ty : string) (instances : list Instance)
        (r : option Z) (self' : InstanceLauncher St Pr) :
  _launch_new_instances_by_type
    fuel ty instances (mkLauncher st pr concurrent per_request [])
  = Ok r self' ->
  forallb snd (attempts (calls self')) = true ->
  linked (calls self')
  = rev (map CloudInstance.cloud_instance_id (created (calls self'))).
Proof.
  intros Hrun Hall.
  destruct instances as [|i0 rest].
  { simpl in Hrun. injection Hrun as <- <-. reflexivity. }
  assert (Hend : final (_launch_new_instances_by_type
                          fuel ty (i0 :: rest)
                          (mkLauncher st pr concurrent per_request []))
                 = Some self') by now rewrite Hrun.
  destruct (launch_trace fuel ty (i0 :: rest) _ self'
                         ltac:(discriminate) Hend)
    as (results & cs & tr_pair & out & tr_fail & Hlen & _ & Hc & Hcase).
  destruct Hcase as [(_ & _ & _ & C) | (_ & Ht & Hout)].
  { rewrite Hrun in C. discriminate. }
  destruct out as [pool'|]; [|destruct Hout as (_ & C);
                              rewrite Hrun in C; discriminate].
  destruct Hout as (-> & _ & results' & Hlen' & ->).
  simpl calls in Hc. rewrite app_nil_l in Hc.
  destruct (pairing_trace_writes _ _ _ Ht) as [Hcr _].
  rewrite Hc in Hall |- *.
  rewrite !attempts_app, attempts_requested_writes, attempts_failed_writes
    in Hall.
  simpl in Hall. rewrite app_nil_r in Hall.
  rewrite !linked_app, !created_app, linked_requested_writes,
    created_requested_writes, linked_failed_writes, created_failed_writes,
    Hcr.
  change (linked [EvCreate ty (length (i0 :: rest)) cs]) with (@nil string).
  change (created [EvCreate ty (length (i0 :: rest)) cs]) with (cs ++ []).
  rewrite !app_nil_r. cbn [app].
  exact (pairing_trace_order _ _ _ Ht eq_refl Hall).
Qed.

Lemma launch_links_from_the_last_created_node_witness :
  exists r self',
    two_for_two = Ok r self' /\
    forallb snd (attempts (calls self')) = true /\
    linked (calls self')
    = rev (map CloudInstance.cloud_instance_id (created (calls self'))).
Proof.
  eexists. eexists. split; [vm_compute; reflexivity|].
  split; [vm_compute; reflexivity|].
  eapply (launch_links_from_the_last_created_node
            (registry_of [i1; i2] []) (Cloud.mk [r1; r2] []) 1 5
            4 "small" [i1; i2]).
  - vm_compute. reflexivity.
  - vm_compute. reflexivity.
Defined.

Example two_for_two_pairs_last_node_first :
  linked (calls_of two_for_two) = ["c2"; "c1"]%string /\
  option_map cloud_instance_id (stored "i1" two_for_two) = Some "c2"%string /\
  option_map cloud_instance_id (stored "i2" two_for_two) = Some "c1"%string.
Proof. vm_compute. repeat split. Qed.

(** X8.  In a run of [_launch_new_instances_by_type] that ends, an
    ALLOCATED write that fails is followed, if another ALLOCATED write is
    made at all, by one that carries the same cloud instance: the cloud
    instance goes back to the end of the pool and is the next one
    popped. *)
Theorem failed_allocated_write_is_retried_with_the_same_node
        {St Pr : Type} `{InstanceStorage St} `{NodeProvider Pr}
        (st : St) (pr : Pr) (concurrent per_request : Z)
        (fuel : nat) (ty : string) (instances : list Instance)
        (self' : InstanceLauncher St Pr)
        (before : list (string * bool)) (a b : string) (okb : bool)
        (after : list (string * bool)) :
  final (_launch_new_instances_by_type
           fuel ty instances (mkLauncher st pr concurrent per_request []))
  = Some self' ->
  attempts (calls self') = before ++ (a, false) :: (b, okb) :: after ->
  a = b.
Proof.
  intros Hend Hatt.
  destruct instances as [|i0 rest].
  { simpl in Hend. injection Hend as <-. now destruct before. }
  destruct (launch_trace_parts fuel ty (i0 :: rest) _ self'
                               ltac:(discriminate) Hend)
    as (lr & cs & tr_pair & out & lf & Hc & Ht).
  simpl calls in Hc. rewrite app_nil_l in Hc.
  rewrite Hc in Hatt.
  rewrite !attempts_app, attempts_requested_writes, attempts_failed_writes
    in Hatt.
  simpl in Hatt. rewrite app_nil_r in Hatt.
  exact (pairing_trace_retries _ _ _ Ht _ _ _ _ _ Hatt).
Qed.

Lemma failed_allocated_write_is_retried_with_the_same_node_witness :
  exists self',
    final first_allocated_write_fails = Some self' /\
    attempts (calls self')
    = [] ++ ("c2"%string, false) :: ("c2"%string, true)
         :: [("c1"%string, true)] /\
    "c2"%string = "c2"%string.
Proof.
  eexists. split; [vm_compute; reflexivity|].
  assert (Hatt : attempts (calls_of first_allocated_write_fails)
                 = [] ++ ("c2"%string, false) :: ("c2"%string, true)
                      :: [("c1"%string, true)])
    by (vm_compute; reflexivity).
  split; [exact Hatt|].
  eapply (failed_allocated_write_is_retried_with_the_same_node
            (registry_of [i1; i2]
                         [None; None; Some ("i1"%string, REQUESTED)])
            (Cloud.mk [r1; r2] []) 1 5 8 "small" [i1; i2]).
  - vm_compute. reflexivity.
  - exact Hatt.
Defined.

(** On a storage whose [pop] always gives an instance and on which every
    ALLOCATED write fails, the pairing loop, once entered, is never left. *)
Lemma pairing_loop_never_ends
      {St Pr : Type} `{InstanceStorage St} `{NodeProvider Pr} :
  (forall st : St, exists i st', pop st = (Some i, st')) ->
  (forall i x (st : St),
      status i = ALLOCATED -> fst (fst (upsert_instance i x st)) = false) ->
  forall (fuel : nat) (pool : list CloudInstance.t)
         (selected : list Instance) (self : InstanceLauncher St Pr),
    pool <> [] -> selected <> [] ->
    pairing_loop fuel pool selected self = OutOfFuel.
Proof.
  intros Hpop Hfail fuel.
  induction fuel as [|fuel IH]; intros pool selected self Hpool Hsel;
    simpl;
    (destruct (list_pop pool) as [[c rem]|] eqn:Ep;
     [|apply list_pop_none in Ep; contradiction]);
    (destruct selected as [|s0 sel]; [now elim Hsel|]);
    [reflexivity|].
  unfold call_pop.
  destruct (Hpop (_instance_storage self)) as (i & st' & ->).
  unfold call_upsert_instance. simpl.
  match goal with
  | |- context [upsert_instance ?a ?b ?c] =>
      pose proof (Hfail a b c eq_refl) as Hko;
      destruct (upsert_instance a b c) as [[ok v] st2]
  end.
  simpl in Hko. subst ok.
  apply IH; [|discriminate].
  intros C. now apply app_eq_nil in C.
Qed.

(** X9.  The pairing loop has no bound of its own.  If the storage's [pop]
    always gives an instance and every ALLOCATED write fails, then on a
    chunk that is not empty for which [create_nodes] returns at least one
    cloud instance (and no more than asked), [_launch_new_instances_by_type]
    neither returns nor raises, whatever the number of iterations
    allowed. *)
Theorem launch_never_ends_while_allocated_writes_fail
        {St Pr : Type} `{InstanceStorage St} `{NodeProvider Pr}
        (ty : string) (instances : list Instance)
        (self : InstanceLauncher St Pr) :
  (forall st : St, exists i st', pop st = (Some i, st')) ->
  (forall i x (st : St),
      status i = ALLOCATED -> fst (fst (upsert_instance i x st)) = false) ->
  instances <> [] ->
  fst (create_nodes ty (length instances) (_node_provider self)) <> [] ->
  (length (fst (create_nodes ty (length instances) (_node_provider self)))
   <= length instances)%nat ->
  forall fuel : nat,
    _launch_new_instances_by_type fuel ty instances self = OutOfFuel.
Proof.
  intros Hpop Hfail Hne Hsome Hle fuel.
  unfold _launch_new_instances_by_type.
  destruct (request_loop_exact instances [] self)
    as (results & Hlen & _ & Hsel & Hpr).
  destruct (request_loop instances [] self) as [selected self1].
  cbn [fst snd] in *. rewrite app_nil_l in Hsel.
  assert (Hlsel : length selected = length instances).
  { rewrite Hsel, length_map, length_combine. lia. }
  destruct selected as [|s0 sel].
  { destruct instances; [now elim Hne | discriminate]. }
  unfold call_create_nodes. rewrite Hpr, Hlsel.
  destruct (create_nodes ty (length instances) (_node_provider self))
    as [cs pr].
  cbn [fst] in *.
  rewrite (proj2 (Nat.leb_le _ _) Hle).
  rewrite (pairing_loop_never_ends Hpop Hfail fuel cs (s0 :: sel) _ Hsome
                                   ltac:(discriminate)).
  reflexivity.
Qed.

Lemma launch_never_ends_while_allocated_writes_fail_witness :
  (forall st : Held.t, exists i st', pop st = (Some i, st')) /\
  (forall i x (st : Held.t),
      status i = ALLOCATED -> fst (fst (upsert_instance i x st)) = false) /\
  [i1] <> [] /\
  fst (create_nodes "small" (length [i1]) (Cloud.mk [r1] [])) <> [] /\
  (length (fst (create_nodes "small" (length [i1]) (Cloud.mk [r1] [])))
   <= length [i1])%nat /\
  forall fuel : nat, held_launch fuel = OutOfFuel.
Proof.
  assert (Hpop : forall st : Held.t, exists i st', pop st = (Some i, st'))
    by (intros st; eexists; eexists; reflexivity).
  assert (Hfail : forall i x (st : Held.t),
             status i = ALLOCATED ->
             fst (fst (upsert_instance i x st)) = false)
    by (intros; reflexivity).
  split; [exact Hpop|]. split; [exact Hfail|].
  split; [discriminate|]. split; [discriminate|].
  split; [simpl; lia|].
  exact (launch_never_ends_while_allocated_writes_fail
           "small" [i1] (mkLauncher Held.held (Cloud.mk [r1] []) 1 5 [])
           Hpop Hfail ltac:(discriminate) ltac:(discriminate)
           ltac:(simpl; lia)).
Defined.

(** ** More on chunking *)

Lemma pieces_nil {A : Type} (m : Z) : 0 < m -> pieces m (@nil A) = [].
Proof.
  intros Hm. unfold pieces. simpl.
  rewrite Z.div_small by lia. reflexivity.
Qed.

Lemma pieces_length {A : Type} (m : Z) (l : list A) :
  length (pieces m l) = Z.to_nat ((Z.of_nat (length l) + m - 1) / m).
Proof. unfold pieces. now rewrite length_map, length_seq. Qed.

(** No piece is empty, and every piece but the last has [m] elements. *)
Lemma pieces_sizes {A : Type} (m : Z) (l : list A) (k : nat)
      (chunk : list A) :
  0 < m ->
  nth_error (pieces m l) k = Some chunk ->
  chunk <> [] /\
  ((k + 1 < length (pieces m l))%nat -> Z.of_nat (length chunk) = m).
Proof.
  intros Hm Hnth. rewrite pieces_length. unfold pieces in Hnth.
  rewrite nth_error_map, nth_error_seq in Hnth.
  destruct (Nat.ltb_spec k (Z.to_nat ((Z.of_nat (length l) + m - 1) / m)))
    as [Hk|]; [|discriminate].
  simpl in Hnth. injection Hnth as <-.
  destruct (pieces_count Hm (Nat2Z.is_nonneg (length l)))
    as [(Hq & _ & Hlt) | (_ & Hq0)]; [|rewrite Hq0 in Hk; simpl in Hk; lia].
  set (q := (Z.of_nat (length l) + m - 1) / m) in *.
  assert (HkM : Z.of_nat (k * Z.to_nat m) = Z.of_nat k * m)
    by (rewrite Nat2Z.inj_mul, Z2Nat.id; lia).
  assert (Hkq : Z.of_nat k <= q - 1) by lia.
  assert (Hlow : Z.of_nat k * m < Z.of_nat (length l)) by nia.
  assert (Hlen : length (firstn (Z.to_nat m) (skipn (k * Z.to_nat m) l))
                 = Nat.min (Z.to_nat m) (length l - k * Z.to_nat m))
    by now rewrite length_firstn, length_skipn.
  split.
  - intros C. rewrite C in Hlen. simpl in Hlen. lia.
  - intros Hnext. rewrite Hlen.
    assert (Z.of_nat k + 1 <= q - 1) by lia.
    assert ((Z.of_nat k + 1) * m < Z.of_nat (length l)) by nia.
    lia.
Qed.

Lemma pieces_nonempty {A : Type} (m : Z) (l chunk : list A) :
  0 < m -> In chunk (pieces m l) -> chunk <> [].
Proof.
  intros Hm Hin. apply In_nth_error in Hin. destruct Hin as [k Hk].
  exact (proj1 (pieces_sizes m l k chunk Hm Hk)).
Qed.

(** ** More on grouping *)

Lemma gather_present (ty : string) (l : list Instance)
      (d : list (string * list Instance)) :
  NoDup (map fst d) -> In (ty, l) d -> gather ty d = l.
Proof.
  induction d as [|[k l0] d IH]; intros Hnd Hin; [destruct Hin|].
  inversion Hnd as [|? ? Hnot Hrest]; subst.
  unfold gather. simpl. fold (gather ty d).
  destruct Hin as [E | Hin].
  - injection E as -> ->. rewrite String.eqb_refl.
    rewrite (gather_absent ty d Hnot). apply app_nil_r.
  - destruct (String.eqb_spec k ty) as [->|_].
    + elim Hnot. apply in_map_iff. now exists (ty, l).
    + now apply IH.
Qed.

Lemma group_loop_keys (q : list Instance) :
  forall (d : list (string * list Instance)) (k : string),
    In k (map fst (group_loop q d)) <->
    In k (map fst d) \/ exists i, In i q /\ instance_type i = k.
Proof.
  induction q as [|i q IH]; intros d k; simpl.
  - split; [now left | intros [Hd | (i & [] & _)]; exact Hd].
  - rewrite IH, dict_append_keys. split.
    + intros [[Hd | ->] | (j & Hj & <-)].
      * now left.
      * right. exists i. split; [now left | reflexivity].
      * right. exists j. split; [now right | reflexivity].
    + intros [Hd | (j & [-> | Hj] & <-)].
      * left. now left.
      * left. now right.
      * right. now exists j.
Qed.

Lemma dict_append_all (d : list (string * list Instance)) (k : string)
      (i : Instance) :
  Permutation (concat (map snd (dict_append d k i)))
              (i :: concat (map snd d)).
Proof.
  induction d as [|[k0 l] d IH]; simpl; [reflexivity|].
  destruct (String.eqb k0 k); simpl.
  - rewrite <- app_assoc. simpl.
    apply Permutation_sym, Permutation_middle.
  - rewrite IH. apply Permutation_sym, Permutation_middle.
Qed.

Lemma group_loop_all (q : list Instance) :
  forall d : list (string * list Instance),
    Permutation (concat (map snd (group_loop q d)))
                (concat (map snd d) ++ q).
Proof.
  induction q as [|i q IH]; intros d; simpl.
  - now rewrite app_nil_r.
  - rewrite IH, dict_append_all. apply Permutation_middle.
Qed.

(** X15.  The grouping loop of a pass (lines 75-77) files the queued
    instances by type: no type is filed twice, every queued instance's type
    is filed, and the list filed under a type is, in order, the queued
    instances of that type, so it is never empty. *)
Theorem group_loop_files_by_type (queued_instances : list Instance) :
  let instances_by_type := group_loop queued_instances [] in
  NoDup (map fst instances_by_type) /\
  (forall i, In i queued_instances ->
             In (instance_type i) (map fst instances_by_type)) /\
  (forall ty instances,
      In (ty, instances) instances_by_type ->
      instances
      = filter (fun i => String.eqb (instance_type i) ty) queued_instances
      /\ instances <> []).
Proof.
  intros d. subst d.
  destruct (group_loop_spec queued_instances (d := []))
    as (Hnd & _ & Hg); [constructor | constructor |].
  split; [exact Hnd|]. split.
  - intros i Hi. apply group_loop_keys. right. now exists i.
  - intros ty l Hin.
    assert (Hl : l = filter (fun i => String.eqb (instance_type i) ty)
                            queued_instances).
    { rewrite <- (gather_present ty l _ Hnd Hin). now rewrite Hg. }
    split; [exact Hl|].
    assert (Hk : In ty (map fst (group_loop queued_instances []))).
    { apply in_map_iff. now exists (ty, l). }
    apply group_loop_keys in Hk.
    destruct Hk as [[] | (i & Hi & Hty)].
    intros C. rewrite C in Hl.
    assert (Hf : In i (filter (fun i => String.eqb (instance_type i) ty)
                              queued_instances)).
    { apply filter_In. split; [exact Hi|]. now apply String.eqb_eq. }
    rewrite <- Hl in Hf. destruct Hf.
Qed.

(** ** [_may_launch_new_instances]: what a pass does *)

Lemma range_negative_step (len m : Z) :
  m < 0 -> 0 <= len -> range 0 len m = Some [].
Proof.
  intros Hm Hlen. unfold range.
  destruct (Z.eqb_spec m 0) as [->|_]; [lia|].
  destruct (Z.ltb_spec 0 m) as [|_]; [lia|].
  replace (Z.to_nat ((0 - len - m - 1) / - m)) with 0%nat; [reflexivity|].
  destruct (Z.eq_dec len 0) as [->|Hpos].
  - rewrite Z.div_small by lia. reflexivity.
  - assert ((0 - len - m - 1) / - m <= 0); [|lia].
    destruct (Z.le_gt_cases 0 (0 - len - m - 1)) as [Hnn | Hneg].
    + rewrite Z.div_small by lia. lia.
    + assert ((0 - len - m - 1) / - m < 0); [|lia].
      apply Z.div_lt_upper_bound; lia.
Qed.

Lemma all_chunks_app (a b : list Event) :
  all_chunks (a ++ b) = all_chunks a ++ all_chunks b.
Proof. apply flat_map_app. Qed.

Lemma all_chunks_queued_writes (l : list (Instance * (bool * Z))) :
  all_chunks (map queued_write l) = [].
Proof.
  unfold all_chunks. induction l as [|p l IH]; simpl; [reflexivity|].
  exact IH.
Qed.

Lemma all_chunks_submits (k : string) (cs : list (list Instance)) :
  all_chunks (map (EvSubmit k) cs) = cs.
Proof.
  unfold all_chunks. induction cs as [|c cs IH]; simpl; [reflexivity|].
  now rewrite IH.
Qed.

Lemma concat_all_chunks_of_pieces (m : Z)
      (d : list (string * list Instance)) :
  0 < m ->
  concat (all_chunks
            (flat_map (fun kv => map (EvSubmit (fst kv)) (pieces m (snd kv)))
                      d))
  = concat (map snd d).
Proof.
  intros Hm. induction d as [|[k l] d IH]; [reflexivity|].
  simpl. rewrite all_chunks_app, concat_app, IH, all_chunks_submits.
  now rewrite concat_pieces.
Qed.

(** With distinct keys, the chunks submitted for a type are the pieces of
    the list filed under it. *)
Lemma chunks_of_pieces (ty : string) (m : Z)
      (d : list (string * list Instance)) :
  0 < m -> NoDup (map fst d) ->
  chunks_of ty
    (flat_map (fun kv => map (EvSubmit (fst kv)) (pieces m (snd kv))) d)
  = pieces m (gather ty d).
Proof.
  intros Hm. induction d as [|[k l] d IH]; intros Hnd.
  - simpl. now rewrite pieces_nil.
  - inversion Hnd as [|? ? Hnot Hrest]; subst.
    simpl. rewrite chunks_of_app, chunks_of_submits, (IH Hrest).
    unfold gather. simpl. fold (gather ty d).
    destruct (String.eqb_spec k ty) as [->|_].
    + rewrite (gather_absent ty d Hnot), pieces_nil, !app_nil_r by assumption.
      reflexivity.
    + reflexivity.
Qed.

Section PassExtras.

Context {St Pr : Type} `{InstanceStorage St} `{NodeProvider Pr}.

Implicit Types self : InstanceLauncher St Pr.

Lemma queue_loop_provider (new_instances acc : list Instance) self :
  _node_provider (snd (queue_loop new_instances acc self))
  = _node_provider self.
Proof.
  revert acc self.
  induction new_instances as [|i rest IH]; intros acc self; simpl;
    [reflexivity|].
  pose proof (call_upsert_instance_provider (set_status i QUEUED)
                                            (version i) self) as Hp.
  destruct (call_upsert_instance (set_status i QUEUED) (version i) self)
    as [[ok v] self1].
  simpl in Hp. destruct ok; now rewrite IH.
Qed.

Lemma submit_loop_state (ty : string) (l : list Instance)
      (indices : list Z) self :
  _node_provider (submit_loop ty l indices self) = _node_provider self /\
  _instance_storage (submit_loop ty l indices self)
  = _instance_storage self.
Proof.
  revert self. induction indices as [|i rest IH]; intros self; simpl;
    [now split|].
  destruct (IH (submit ty
                  (slice l i (Z.min (i + _max_nodes_per_request self)
                                    (Z.of_nat (length l)))) self))
    as [Hp Hs].
  now rewrite Hp, Hs.
Qed.

(** The submission loop always ends, only submits, and leaves the storage
    and the provider as they were. *)
Lemma type_loop_end (d : list (string * list Instance)) self :
  exists self' tr,
    final (type_loop d self) = Some self' /\
    calls self' = calls self ++ tr /\
    forallb is_submit tr = true /\
    _node_provider self' = _node_provider self /\
    _instance_storage self' = _instance_storage self.
Proof.
  revert self. induction d as [|[ty l] d IH]; intros self; simpl.
  - exists self, []. now rewrite app_nil_r.
  - destruct (range 0 (Z.of_nat (length l)) (_max_nodes_per_request self))
      as [indices|].
    + destruct (submit_loop_calls ty l indices self) as [Hc _].
      destruct (submit_loop_state ty l indices self) as [Hp Hs].
      destruct (IH (submit_loop ty l indices self))
        as (self' & tr & Hf & Hc' & Hsub & Hp' & Hs').
      exists self'. eexists. split; [exact Hf|].
      rewrite Hc', Hc, <- app_assoc. split; [reflexivity|].
      split; [|now rewrite Hp', Hs', Hp, Hs].
      rewrite forallb_app, Hsub, andb_true_r.
      rewrite forallb_forall. intros e He.
      apply in_map_iff in He. now destruct He as (? & <- & _).
    + exists self, []. now rewrite app_nil_r.
Qed.

(** The calls of a pass with a positive [max_nodes_per_request]. *)
Lemma pass_positive_trace (st : St) (pr : Pr) (concurrent per_request : Z) :
  0 < per_request ->
  exists self' (results : list (bool * Z)),
    _may_launch_new_instances (mkLauncher st pr concurrent per_request [])
    = Ok tt self' /\
    calls self'
    = EvGet [UNKNOWN]
      :: map queued_write
             (combine (map snd (get_instances [UNKNOWN] st)) results)
      ++ flat_map (fun kv => map (EvSubmit (fst kv))
                                 (pieces per_request (snd kv)))
                  (group_loop
                     (claimed_instances
                        (mkLauncher st pr concurrent per_request []))
                     []).
Proof.
  intros Hm.
  unfold claimed_instances, _may_launch_new_instances, call_get_instances.
  cbn [_instance_storage _node_provider fst snd].
  set (self0 := mkLauncher st pr concurrent per_request []).
  set (self1 := record (EvGet [UNKNOWN]) self0 st pr).
  destruct (get_instances [UNKNOWN] st) as [|kv snapshot] eqn:Es.
  - exists self1, []. split; reflexivity.
  - set (new_instances := map snd (kv :: snapshot)).
    destruct (queue_loop_spec new_instances [] self1)
      as (results & _ & Hc & _ & Hcfg).
    destruct (queue_loop new_instances [] self1) as [queued self2].
    cbn [fst snd] in *.
    change (_max_nodes_per_request self1) with per_request in Hcfg.
    destruct (type_loop_spec (group_loop queued []) self2)
      as (self' & Hrun & Hc').
    { now rewrite Hcfg. }
    rewrite Hcfg in Hc'.
    exists self', results. split; [exact Hrun|].
    rewrite Hc', Hc. reflexivity.
Qed.

End PassExtras.

(** X10.  Whatever its configuration, a pass ends (it returns or raises)
    and its calls are, in this order: the read of the UNKNOWN instances,
    one QUEUED write per instance read, and submissions of chunks.  It
    never calls the storage's [pop], [create_nodes] or [terminate_nodes],
    and it leaves the provider as it was: all provider work is left to the
    submitted chunks. *)
Theorem pass_reads_claims_and_submits_only
        {St Pr : Type} `{InstanceStorage St} `{NodeProvider Pr}
        (st : St) (pr : Pr) (concurrent per_request : Z) :
  let self := mkLauncher st pr concurrent per_request [] in
  let new_instances := map snd (get_instances [UNKNOWN] st) in
  exists self' (results : list (bool * Z)) (submits : list Event),
    final (_may_launch_new_instances self) = Some self' /\
    length results = length new_instances /\
    calls self'
    = EvGet [UNKNOWN]
      :: map queued_write (combine new_instances results) ++ submits /\
    forallb is_submit submits = true /\
    existsb is_provider_or_pop (calls self') = false /\
    _node_provider self' = pr.
Proof.
  intros self new_instances.
  assert (Hquiet : forall (l : list (Instance * (bool * Z)))
                          (submits : list Event),
             forallb is_submit submits = true ->
             existsb is_provider_or_pop
                     (EvGet [UNKNOWN] :: map queued_write l ++ submits)
             = false).
  { intros l submits Hs. simpl. rewrite existsb_app.
    apply orb_false_iff. split.
    - induction l as [|p l IH]; [reflexivity | exact IH].
    - induction submits as [|e tr IH]; [reflexivity|].
      simpl in Hs. apply andb_true_iff in Hs. destruct Hs as [He Hs].
      destruct e; try discriminate. simpl. now apply IH. }
  unfold _may_launch_new_instances, call_get_instances.
  subst self. cbn [_instance_storage _node_provider]. fold new_instances.
  set (self0 := mkLauncher st pr concurrent per_request []).
  set (self1 := record (EvGet [UNKNOWN]) self0 st pr).
  destruct (get_instances [UNKNOWN] st) as [|kv snapshot] eqn:Es.
  - exists self1, [], []. subst new_instances. now repeat split.
  - change (map snd (kv :: snapshot)) with new_instances.
    destruct (queue_loop_spec new_instances [] self1)
      as (results & Hlen & Hc & _ & _).
    pose proof (queue_loop_provider new_instances [] self1) as Hp.
    destruct (queue_loop new_instances [] self1) as [queued self2].
    cbn [fst snd] in *.
    destruct (type_loop_end (group_loop queued []) self2)
      as (self' & tr & Hf & Hc' & Hs & Hp' & _).
    exists self', results, tr.
    split; [exact Hf|]. split; [exact Hlen|].
    assert (Hcalls : calls self'
                     = EvGet [UNKNOWN]
                       :: map queued_write (combine new_instances results)
                       ++ tr).
    { rewrite Hc', Hc. reflexivity. }
    split; [exact Hcalls|]. split; [exact Hs|]. split.
    + rewrite Hcalls. now apply Hquiet.
    + now rewrite Hp', Hp.
Qed.

(** X11.  With [max_nodes_per_request] equal to 0, a pass that has claimed
    at least one instance raises [ValueError] (the step of the [range] of
    line 80) after its QUEUED writes and submits no chunk; a pass that has
    claimed nothing returns. *)
Theorem pass_with_zero_batch_raises_after_claiming
        {St Pr : Type} `{InstanceStorage St} `{NodeProvider Pr}
        (st : St) (pr : Pr) (concurrent : Z) :
  let self := mkLauncher st pr concurrent 0 [] in
  match claimed_instances self with
  | [] =>
      exists self',
        _may_launch_new_instances self = Ok tt self' /\
        all_chunks (calls self') = []
  | _ :: _ =>
      exists self',
        _may_launch_new_instances self = Raise ValueError self' /\
        all_chunks (calls self') = []
  end.
Proof.
  intros self. subst self.
  unfold claimed_instances, _may_launch_new_instances, call_get_instances.
  cbn [_instance_storage _node_provider fst snd].
  set (self0 := mkLauncher st pr concurrent 0 []).
  set (self1 := record (EvGet [UNKNOWN]) self0 st pr).
  destruct (get_instances [UNKNOWN] st) as [|kv snapshot] eqn:Es.
  - exists self1. split; reflexivity.
  - set (new_instances := map snd (kv :: snapshot)).
    destruct (queue_loop_spec new_instances [] self1)
      as (results & _ & Hc & _ & Hcfg).
    destruct (queue_loop new_instances [] self1) as [queued self2].
    cbn [fst snd] in *.
    change (_max_nodes_per_request self1) with 0 in Hcfg.
    assert (Hnone : all_chunks (calls self2) = []).
    { rewrite Hc, all_chunks_app, all_chunks_queued_writes. reflexivity. }
    destruct queued as [|q0 qs].
    + exists self2. split; [reflexivity | exact Hnone].
    + assert (Hkey : In (instance_type q0)
                        (map fst (group_loop (q0 :: qs) []))).
      { apply group_loop_keys. right. exists q0.
        split; [now left | reflexivity]. }
      destruct (group_loop (q0 :: qs) []) as [|[ty l] d]; [destruct Hkey|].
      exists self2. split; [|exact Hnone].
      simpl. rewrite Hcfg. reflexivity.
Qed.

Example pass_with_zero_batch :
  exists self', pass_with 0 = Raise ValueError self' /\
                cas_writes (calls self')
                = [("u1", QUEUED, true); ("u2", QUEUED, true);
                   ("u3", QUEUED, false); ("u4", QUEUED, true)]%string.
Proof. vm_compute. eexists. split; reflexivity. Qed.

Section NegativeBatch.

Context {St Pr : Type} `{InstanceStorage St} `{NodeProvider Pr}.

Lemma type_loop_negative_step (d : list (string * list Instance))
      (self : InstanceLauncher St Pr) :
  _max_nodes_per_request self < 0 -> type_loop d self = Ok tt self.
Proof.
  intros Hm. induction d as [|[ty l] d IH]; simpl; [reflexivity|].
  rewrite (range_negative_step _ _ Hm (Nat2Z.is_nonneg (length l))).
  simpl. exact IH.
Qed.

End NegativeBatch.

(** X12.  With a negative [max_nodes_per_request], a pass returns without
    submitting any chunk: the instances it has claimed are written QUEUED
    and never launched. *)
Theorem pass_with_negative_batch_submits_nothing
        {St Pr : Type} `{InstanceStorage St} `{NodeProvider Pr}
        (st : St) (pr : Pr) (concurrent per_request : Z) :
  per_request < 0 ->
  exists self',
    _may_launch_new_instances (mkLauncher st pr concurrent per_request [])
    = Ok tt self' /\
    all_chunks (calls self') = [].
Proof.
  intros Hm.
  unfold _may_launch_new_instances, call_get_instances.
  cbn [_instance_storage _node_provider].
  set (self0 := mkLauncher st pr concurrent per_request []).
  set (self1 := record (EvGet [UNKNOWN]) self0 st pr).
  destruct (get_instances [UNKNOWN] st) as [|kv snapshot] eqn:Es.
  - exists self1. split; reflexivity.
  - set (new_instances := map snd (kv :: snapshot)).
    destruct (queue_loop_spec new_instances [] self1)
      as (results & _ & Hc & _ & Hcfg).
    destruct (queue_loop new_instances [] self1) as [queued self2].
    cbn [fst snd] in *.
    change (_max_nodes_per_request self1) with per_request in Hcfg.
    exists self2. split.
    + apply type_loop_negative_step. now rewrite Hcfg.
    + rewrite Hc, all_chunks_app, all_chunks_queued_writes. reflexivity.
Qed.

Lemma pass_with_negative_batch_submits_nothing_witness :
  -1 < 0 /\
  exists self', pass_with (-1) = Ok tt self' /\ all_chunks (calls self') = [].
Proof.
  split; [reflexivity|].
  exact (pass_with_negative_batch_submits_nothing
           (registry_of [u1; u2; u3; u4]
                        [None; None; Some ("u3"%string, TERMINATING)])
           (Cloud.mk [] []) 1 (-1) eq_refl).
Defined.

(** X13.  With a positive [max_nodes_per_request] m, the pass submits, for
    a type of which it has claimed n instances, ceil(n / m) chunks; none of
    them is empty, and every one but the last has exactly m instances. *)
Theorem pass_chunk_sizes
        {St Pr : Type} `{InstanceStorage St} `{NodeProvider Pr}
        (st : St) (pr : Pr) (concurrent per_request : Z) (ty : string) :
  0 < per_request ->
  let self := mkLauncher st pr concurrent per_request [] in
  exists self',
    _may_launch_new_instances self = Ok tt self' /\
    let chunks := chunks_of ty (calls self') in
    let n := length (filter (fun i => String.eqb (instance_type i) ty)
                            (claimed_instances self)) in
    length chunks = Z.to_nat ((Z.of_nat n + per_request - 1) / per_request)
    /\
    forall k chunk,
      nth_error chunks k = Some chunk ->
      chunk <> [] /\
      ((k + 1 < length chunks)%nat ->
       Z.of_nat (length chunk) = per_request).
Proof.
  intros Hm self. subst self.
  destruct (pass_positive_trace st pr concurrent per_request Hm)
    as (self' & results & Hrun & Hc).
  exists self'. split; [exact Hrun|].
  set (claimed_list := claimed_instances
                         (mkLauncher st pr concurrent per_request [])) in *.
  destruct (group_loop_spec claimed_list (d := []))
    as (Hnd & _ & Hg); [constructor | constructor |].
  assert (Hchunks : chunks_of ty (calls self')
                    = pieces per_request
                        (filter (fun i => String.eqb (instance_type i) ty)
                                claimed_list)).
  { rewrite Hc.
    change (EvGet [UNKNOWN]
            :: map queued_write
                   (combine (map snd (get_instances [UNKNOWN] st)) results)
            ++ flat_map
                 (fun kv => map (EvSubmit (fst kv))
                                (pieces per_request (snd kv)))
                 (group_loop claimed_list []))
      with ([EvGet [UNKNOWN]]
            ++ map queued_write
                   (combine (map snd (get_instances [UNKNOWN] st)) results)
            ++ flat_map
                 (fun kv => map (EvSubmit (fst kv))
                                (pieces per_request (snd kv)))
                 (group_loop claimed_list [])).
    rewrite !chunks_of_app, chunks_of_queued_writes.
    rewrite (chunks_of_pieces ty per_request _ Hm Hnd), Hg.
    reflexivity. }
  cbv zeta. rewrite Hchunks. split.
  - apply pieces_length.
  - intros k chunk Hk. exact (pieces_sizes _ _ k chunk Hm Hk).
Qed.

Lemma pass_chunk_sizes_witness :
  0 < 2 /\
  exists self',
    pass_over_four = Ok tt self' /\
    let chunks := chunks_of "small" (calls self') in
    let n := length (filter (fun i => String.eqb (instance_type i) "small")
                            (claimed_instances
                               (launcher
                                  (registry_of [u1; u2; u3; u4]
                                     [None; None;
                                      Some ("u3"%string, TERMINATING)])
                                  (Cloud.mk [] []) 2))) in
    length chunks = Z.to_nat ((Z.of_nat n + 2 - 1) / 2) /\
    forall k chunk,
      nth_error chunks k = Some chunk ->
      chunk <> [] /\
      ((k + 1 < length chunks)%nat -> Z.of_nat (length chunk) = 2).
Proof.
  split; [reflexivity|].
  exact (pass_chunk_sizes
           (registry_of [u1; u2; u3; u4]
                        [None; None; Some ("u3"%string, TERMINATING)])
           (Cloud.mk [] []) 1 2 "small" eq_refl).
Defined.

(** X14.  With a positive [max_nodes_per_request], the instances of all
    the chunks that a pass submits are, up to their order, the instances
    the pass has claimed: each claimed instance is in exactly one chunk,
    whatever its type. *)
Theorem pass_chunks_hold_the_claimed_once
        {St Pr : Type} `{InstanceStorage St} `{NodeProvider Pr}
        (st : St) (pr : Pr) (concurrent per_request : Z) :
  0 < per_request ->
  let self := mkLauncher st pr concurrent per_request [] in
  exists self',
    _may_launch_new_instances self = Ok tt self' /\
    Permutation (concat (all_chunks (calls self')))
                (claimed_instances self).
Proof.
  intros Hm self. subst self.
  destruct (pass_positive_trace st pr concurrent per_request Hm)
    as (self' & results & Hrun & Hc).
  exists self'. split; [exact Hrun|].
  rewrite Hc.
  match goal with
  | |- Permutation (concat (all_chunks (?e :: ?a ++ ?b))) _ =>
      change (e :: a ++ b) with ([e] ++ a ++ b)
  end.
  rewrite !all_chunks_app, all_chunks_queued_writes.
  change (all_chunks [EvGet [UNKNOWN]]) with (@nil (list Instance)).
  cbn [app].
  rewrite (concat_all_chunks_of_pieces per_request _ Hm).
  apply (group_loop_all _ []).
Qed.

Lemma pass_chunks_hold_the_claimed_once_witness :
  0 < 2 /\
  exists self',
    pass_over_four = Ok tt self' /\
    Permutation (concat (all_chunks (calls self')))
                (claimed_instances
                   (launcher
                      (registry_of [u1; u2; u3; u4]
                         [None; None; Some ("u3"%string, TERMINATING)])
                      (Cloud.mk [] []) 2)).
Proof.
  split; [reflexivity|].
  exact (pass_chunks_hold_the_claimed_once
           (registry_of [u1; u2; u3; u4]
                        [None; None; Some ("u3"%string, TERMINATING)])
           (Cloud.mk [] []) 1 2 eq_refl).
Defined.

(** ** [notify] *)

Lemma Status_eqb_eq (a b : Status) : Status_eqb a b = true <-> a = b.
Proof. destruct a, b; simpl; split; congruence. Qed.

(** X16.  [notify] hands one run of [_may_launch_new_instances] to the
    executor when at least one of the events has [new_status] UNKNOWN,
    however many such events there are, and leaves the executor's queue as
    it was when none has. *)
Theorem notify_schedules_one_pass_for_unknown_events
        (events : list InstanceUpdateEvent.t) (_executor : list Task) :
  (notify events _executor = _executor ++ [may_launch_new_instances_task]
   <-> exists event,
         In event events /\
         InstanceUpdateEvent.new_status event = UNKNOWN) /\
  (notify events _executor = _executor
   <-> forall event,
         In event events ->
         InstanceUpdateEvent.new_status event <> UNKNOWN).
Proof.
  assert (Hgrow : _executor ++ [may_launch_new_instances_task]
                  <> _executor).
  { intros C. apply (f_equal (@length _)) in C.
    rewrite length_app in C. simpl in C. lia. }
  unfold notify, any.
  set (flags := map (fun event =>
                       Status_eqb (InstanceUpdateEvent.new_status event)
                                  UNKNOWN) events).
  assert (Hany : existsb (fun b => b) flags = true
                 <-> exists event,
                       In event events /\
                       InstanceUpdateEvent.new_status event = UNKNOWN).
  { rewrite existsb_exists. unfold flags. split.
    - intros (b & Hin & Hb). apply in_map_iff in Hin.
      destruct Hin as (event & <- & Hin). exists event.
      split; [exact Hin | now apply Status_eqb_eq].
    - intros (event & Hin & Hst). exists true. split; [|reflexivity].
      apply in_map_iff. exists event.
      split; [now apply Status_eqb_eq | exact Hin]. }
  destruct (existsb (fun b => b) flags) eqn:E; split; split.
  - intros _. now apply Hany.
  - reflexivity.
  - intros C. now elim Hgrow.
  - intros Hnone.
    destruct (proj1 Hany eq_refl) as (event & Hin & Hst).
    now elim (Hnone event Hin).
  - intros C. symmetry in C. now elim Hgrow.
  - intros Hex. apply Hany in Hex. discriminate.
  - intros _ event Hin Hst.
    assert (C : false = true) by (apply Hany; now exists event).
    discriminate.
  - reflexivity.
Qed.

(** ** A pass and the launch of its chunks *)

(** X17.  The bound on requests.  For a chunk submitted by a pass with a
    positive [max_nodes_per_request], every run of
    [_launch_new_instances_by_type] on it that ends makes exactly one
    [create_nodes] request, for the chunk's type and for at least one and
    at most [max_nodes_per_request] nodes. *)
Theorem chunk_of_a_pass_asks_for_a_bounded_batch
        {St Pr : Type} `{InstanceStorage St} `{NodeProvider Pr}
        (st : St) (pr : Pr) (concurrent per_request : Z)
        (self' : InstanceLauncher St Pr)
        (ty : string) (chunk : list Instance)
        (st2 : St) (pr2 : Pr) (concurrent2 per_request2 : Z) (fuel : nat)
        (self'' : InstanceLauncher St Pr) :
  0 < per_request ->
  _may_launch_new_instances (mkLauncher st pr concurrent per_request [])
  = Ok tt self' ->
  In (EvSubmit ty chunk) (calls self') ->
  final (_launch_new_instances_by_type
           fuel ty chunk (mkLauncher st2 pr2 concurrent2 per_request2 []))
  = Some self'' ->
  exists n : nat,
    create_requests (calls self'') = [(ty, n)] /\
    (1 <= n)%nat /\ Z.of_nat n <= per_request.
Proof.
  intros Hm Hpass Hin Hend.
  destruct (pass_positive_trace st pr concurrent per_request Hm)
    as (self1 & results & Hrun & Hc).
  rewrite Hpass in Hrun. injection Hrun as <-.
  rewrite Hc in Hin.
  destruct Hin as [C | Hin]; [discriminate|].
  apply in_app_or in Hin. destruct Hin as [Hin | Hin].
  { apply in_map_iff in Hin. destruct Hin as (? & C & _). discriminate. }
  apply in_flat_map in Hin. destruct Hin as ([k l] & _ & Hin).
  apply in_map_iff in Hin. destruct Hin as (c & E & Hpiece).
  injection E as <- <-. cbn [fst snd] in *.
  pose proof (pieces_nonempty per_request l c Hm Hpiece) as Hne.
  destruct (@pieces_bound _ per_request l c Hm Hpiece) as [Hb _].
  exists (length c). split.
  - exact (launch_requests_whole_chunk
             fuel k (mkLauncher st2 pr2 concurrent2 per_request2 [])
             eq_refl Hne Hend).
  - split; [|exact Hb]. destruct c; [now elim Hne | simpl; lia].
Qed.

Lemma chunk_of_a_pass_asks_for_a_bounded_batch_witness :
  0 < 2 /\
  exists self' self'',
    pass_over_four = Ok tt self' /\
    In (EvSubmit "gpu" gpu_chunk) (calls self') /\
    final gpu_chunk_launch = Some self'' /\
    exists n : nat,
      create_requests (calls self'') = [("gpu"%string, n)] /\
      (1 <= n)%nat /\ Z.of_nat n <= 2.
Proof.
  split; [reflexivity|].
  eexists. eexists.
  split; [vm_compute; reflexivity|].
  assert (Hin : In (EvSubmit "gpu" gpu_chunk) (calls_of pass_over_four)).
  { vm_compute. do 6 right. left. reflexivity. }
  split; [exact Hin|].
  split; [vm_compute; reflexivity|].
  eapply (chunk_of_a_pass_asks_for_a_bounded_batch
            (registry_of [u1; u2; u3; u4]
                         [None; None; Some ("u3"%string, TERMINATING)])
            (Cloud.mk [] []) 1 2 _ "gpu" gpu_chunk
            (registry_of gpu_chunk []) (Cloud.mk [r1] []) 1 2 4).
  - reflexivity.
  - vm_compute. reflexivity.
  - exact Hin.
  - vm_compute. reflexivity.
Defined.
